(** * PRIMA C interface: the dispatch-and-contract layer of [c/prima.c]

    A shallow embedding of [prima_init_options], [prima_init_problem],
    [prima_check_problem], [prima_init_result], [prima_free_result],
    [prima_minimize] and [prima_get_rc_string], and the properties of that
    layer: capability validation, default derivation, the lifecycle of the
    result buffers and the status translator.

    Conventions of the embedding:
    - a C [int] is a [Z]; signed overflow is undefined behaviour in C and
      stops the run ([None]); [size_t] arithmetic wraps modulo [2^64];
    - a [double] is an IEEE-754 value of [SpecFloat.spec_float]; only the
      constants [0.0], [NAN] and [-INFINITY] are ever built, no arithmetic;
    - a nullable pointer to a struct is an [option]; a pointer to an array,
      a [void*] or a function pointer is a [ptr] ([NULL] or a block address);
    - the C functions run in the monad [M] over a [world]: the heap of
      [double] arrays, the script of the allocator's answers and the log of
      the solver engines called so far. *)

From Stdlib Require Import ZArith Lia Bool List String.
From Stdlib Require Import Floats.SpecFloat.
From stdpp Require Import base option list gmap.

Local Open Scope Z_scope.

(** ** Machine data *)

Definition double := spec_float.
Definition NAN : double := S754_nan.
Definition INFINITY : double := S754_infinity false.
Definition neg_INFINITY : double := S754_infinity true.
(** All bits zero, what [memset(.., 0, ..)] and [calloc] leave in a double. *)
Definition double_zero : double := S754_zero false.

Definition addr := positive.

(** Pointers to arrays of doubles, [void*] and function pointers. No pointer
    arithmetic happens in [prima.c], so a pointer is a block address. *)
Inductive ptr :=
| NULL
| Ptr (a : addr).

#[global] Instance ptr_eq_dec : EqDecision ptr.
Proof. solve_decision. Defined.

Definition is_null (p : ptr) : bool :=
  match p with NULL => true | Ptr _ => false end.

(** C truth value of a pointer used as a condition. *)
Definition nonnull (p : ptr) : bool := negb (is_null p).

(** [const char *]: null or a static string literal. *)
Inductive cstr :=
| NullStr
| Lit (s : string).

Definition INT_MIN : Z := - 2 ^ 31.
Definition INT_MAX : Z := 2 ^ 31 - 1.

Definition in_int (z : Z) : bool := (INT_MIN <=? z) && (z <=? INT_MAX).

(** [a * b] and [a + b] on [int]: the result when it is representable,
    undefined otherwise. *)
Definition int_mul (a b : Z) : option Z :=
  if in_int (a * b) then Some (a * b) else None.

Definition int_add (a b : Z) : option Z :=
  if in_int (a + b) then Some (a + b) else None.

(** [size_t] on an LP64 platform. *)
Definition SIZE_MODULUS : Z := 2 ^ 64.
Definition PTRDIFF_MAX : Z := 2 ^ 63 - 1.
Definition sizeof_double : Z := 8.

(** Conversion of an [int] to [size_t], and [size_t] multiplication. *)
Definition size_of_int (n : Z) : Z := n mod SIZE_MODULUS.
Definition size_mul (a b : Z) : Z := (a * b) mod SIZE_MODULUS.

(** [switch (v) { case c: ...; default: ... }] with one body per label. *)
Fixpoint switch {A : Type} (v : Z) (cases : list (Z * A)) (default : A) : A :=
  match cases with
  | [] => default
  | (c, body) :: rest => if v =? c then body else switch v rest default
  end.

(** ** The declarations of [prima/prima.h]

    The header is not part of the sources at hand: the enumerators it gives
    to [prima_algorithm_t], [prima_message_t] and [prima_rc_t] stay
    parameters of the development. *)
Class prima_h := {
  (* prima_algorithm_t *)
  PRIMA_UOBYQA : Z;
  PRIMA_NEWUOA : Z;
  PRIMA_BOBYQA : Z;
  PRIMA_LINCOA : Z;
  PRIMA_COBYLA : Z;
  (* prima_message_t *)
  PRIMA_MSG_NONE : Z;
  (* prima_rc_t *)
  PRIMA_SMALL_TR_RADIUS : Z;
  PRIMA_FTARGET_ACHIEVED : Z;
  PRIMA_TRSUBP_FAILED : Z;
  PRIMA_MAXFUN_REACHED : Z;
  PRIMA_MAXTR_REACHED : Z;
  PRIMA_NAN_INF_X : Z;
  PRIMA_NAN_INF_F : Z;
  PRIMA_NAN_INF_MODEL : Z;
  PRIMA_NO_SPACE_BETWEEN_BOUNDS : Z;
  PRIMA_DAMAGING_ROUNDING : Z;
  PRIMA_ZERO_LINEAR_CONSTRAINT : Z;
  PRIMA_CALLBACK_TERMINATE : Z;
  PRIMA_INVALID_INPUT : Z;
  PRIMA_ASSERTION_FAILS : Z;
  PRIMA_VALIDATION_FAILS : Z;
  PRIMA_MEMORY_ALLOCATION_FAILS : Z;
  PRIMA_NULL_OPTIONS : Z;
  PRIMA_NULL_PROBLEM : Z;
  PRIMA_NULL_X0 : Z;
  PRIMA_NULL_RESULT : Z;
  PRIMA_NULL_FUNCTION : Z;
  PRIMA_PROBLEM_SOLVER_MISMATCH_NONLINEAR_CONSTRAINTS : Z;
  PRIMA_PROBLEM_SOLVER_MISMATCH_LINEAR_CONSTRAINTS : Z;
  PRIMA_PROBLEM_SOLVER_MISMATCH_BOUNDS : Z
}.

(** [prima_problem_t], with the fields [prima.c] reads and writes. *)
Module Problem.
Record t := mk {
  n : Z;
  calfun : ptr;
  calcfc : ptr;
  x0 : ptr;
  xl : ptr;
  xu : ptr;
  m_ineq : Z;
  Aineq : ptr;
  bineq : ptr;
  m_eq : Z;
  Aeq : ptr;
  beq : ptr;
  m_nlcon : Z;
  f0 : double;
  nlconstr0 : ptr
}.

(** [memset(problem, 0, sizeof(prima_problem_t))] *)
Definition zero : t :=
  mk 0 NULL NULL NULL NULL NULL 0 NULL NULL 0 NULL NULL 0 double_zero NULL.

Definition set_n (v : Z) (p : t) : t :=
  mk v (calfun p) (calcfc p) (x0 p) (xl p) (xu p) (m_ineq p) (Aineq p)
     (bineq p) (m_eq p) (Aeq p) (beq p) (m_nlcon p) (f0 p) (nlconstr0 p).

Definition set_f0 (v : double) (p : t) : t :=
  mk (n p) (calfun p) (calcfc p) (x0 p) (xl p) (xu p) (m_ineq p) (Aineq p)
     (bineq p) (m_eq p) (Aeq p) (beq p) (m_nlcon p) v (nlconstr0 p).
End Problem.

(** [prima_options_t] *)
Module Options.
Record t := mk {
  rhobeg : double;
  rhoend : double;
  ftarget : double;
  maxfun : Z;
  npt : Z;
  iprint : Z;
  data : ptr;
  callback : ptr
}.

(** [memset(options, 0, sizeof(prima_options_t))] *)
Definition zero : t :=
  mk double_zero double_zero double_zero 0 0 0 NULL NULL.

Definition set_rhobeg (v : double) (o : t) : t :=
  mk v (rhoend o) (ftarget o) (maxfun o) (npt o) (iprint o) (data o) (callback o).
Definition set_rhoend (v : double) (o : t) : t :=
  mk (rhobeg o) v (ftarget o) (maxfun o) (npt o) (iprint o) (data o) (callback o).
Definition set_ftarget (v : double) (o : t) : t :=
  mk (rhobeg o) (rhoend o) v (maxfun o) (npt o) (iprint o) (data o) (callback o).
Definition set_maxfun (v : Z) (o : t) : t :=
  mk (rhobeg o) (rhoend o) (ftarget o) v (npt o) (iprint o) (data o) (callback o).
Definition set_npt (v : Z) (o : t) : t :=
  mk (rhobeg o) (rhoend o) (ftarget o) (maxfun o) v (iprint o) (data o) (callback o).
Definition set_iprint (v : Z) (o : t) : t :=
  mk (rhobeg o) (rhoend o) (ftarget o) (maxfun o) (npt o) v (data o) (callback o).
End Options.

(** [prima_result_t] *)
Module Result.
Record t := mk {
  x : ptr;
  f : double;
  cstrv : double;
  nlconstr : ptr;
  nf : Z;
  status : Z;
  message : cstr;
  _m_nlcon : Z
}.

(** [memset(result, 0, sizeof(prima_result_t))] *)
Definition zero : t := mk NULL double_zero double_zero NULL 0 0 NullStr 0.

Definition set_x (v : ptr) (r : t) : t :=
  mk v (f r) (cstrv r) (nlconstr r) (nf r) (status r) (message r) (_m_nlcon r).
Definition set_f (v : double) (r : t) : t :=
  mk (x r) v (cstrv r) (nlconstr r) (nf r) (status r) (message r) (_m_nlcon r).
Definition set_cstrv (v : double) (r : t) : t :=
  mk (x r) (f r) v (nlconstr r) (nf r) (status r) (message r) (_m_nlcon r).
Definition set_nlconstr (v : ptr) (r : t) : t :=
  mk (x r) (f r) (cstrv r) v (nf r) (status r) (message r) (_m_nlcon r).
Definition set_nf (v : Z) (r : t) : t :=
  mk (x r) (f r) (cstrv r) (nlconstr r) v (status r) (message r) (_m_nlcon r).
Definition set_status (v : Z) (r : t) : t :=
  mk (x r) (f r) (cstrv r) (nlconstr r) (nf r) v (message r) (_m_nlcon r).
Definition set_message (v : cstr) (r : t) : t :=
  mk (x r) (f r) (cstrv r) (nlconstr r) (nf r) (status r) v (_m_nlcon r).
Definition set_m_nlcon (v : Z) (r : t) : t :=
  mk (x r) (f r) (cstrv r) (nlconstr r) (nf r) (status r) (message r) v.
End Result.

Abbreviation prima_problem_t := Problem.t.
Abbreviation prima_options_t := Options.t.
Abbreviation prima_result_t := Result.t.

(** ** The world the C functions run in *)

(** A cell of a [double] array: indeterminate (fresh from [malloc]) or a value. *)
Inductive mval :=
| Vundef
| Vdouble (d : double).

(** A live array: [blk_dyn] tells whether it came from [malloc]/[calloc]
    (and may be passed to [free]) or belongs to the caller. *)
Record block := { blk_dyn : bool; blk_cells : list mval }.

(** One call of a solver engine of the Fortran layer, with the input
    arguments in the order of the C prototype; the output parameters
    ([f], [cstrv], [nf], [info]) are the [engine_outs] below. *)
Inductive engine_call :=
| cobyla_c (m_nlcon : Z) (calcfc data : ptr) (n : Z) (x nlconstr : ptr)
    (m_ineq : Z) (Aineq bineq : ptr) (m_eq : Z) (Aeq beq : ptr) (xl xu : ptr)
    (f0 : double) (nlconstr0 : ptr)
    (rhobeg rhoend ftarget : double) (maxfun iprint : Z) (callback : ptr)
| bobyqa_c (calfun data : ptr) (n : Z) (x : ptr) (xl xu : ptr)
    (rhobeg rhoend ftarget : double) (maxfun npt iprint : Z) (callback : ptr)
| newuoa_c (calfun data : ptr) (n : Z) (x : ptr)
    (rhobeg rhoend ftarget : double) (maxfun npt iprint : Z) (callback : ptr)
| uobyqa_c (calfun data : ptr) (n : Z) (x : ptr)
    (rhobeg rhoend ftarget : double) (maxfun iprint : Z) (callback : ptr)
| lincoa_c (calfun data : ptr) (n : Z) (x : ptr)
    (m_ineq : Z) (Aineq bineq : ptr) (m_eq : Z) (Aeq beq : ptr) (xl xu : ptr)
    (rhobeg rhoend ftarget : double) (maxfun npt iprint : Z) (callback : ptr).

(** The scalars an engine writes through its output pointers. *)
Record engine_outs := { e_f : double; e_cstrv : double; e_nf : Z; e_info : Z }.

Record world := {
  heap : gmap addr block;
  (** answers of the allocator to the coming requests ([true]: granted);
      an exhausted script means that memory is exhausted *)
  alloc_script : list bool;
  (** the engine calls made so far, latest first *)
  engine_log : list engine_call
}.

Definition with_heap (h : gmap addr block) (w : world) : world :=
  {| heap := h; alloc_script := alloc_script w; engine_log := engine_log w |}.
Definition with_script (s : list bool) (w : world) : world :=
  {| heap := heap w; alloc_script := s; engine_log := engine_log w |}.
Definition with_log (l : list engine_call) (w : world) : world :=
  {| heap := heap w; alloc_script := alloc_script w; engine_log := l |}.

(** State and undefined-behaviour monad. *)
Definition M (A : Type) : Type := world -> option (A * world).

Definition ret {A : Type} (a : A) : M A := fun w => Some (a, w).
Definition bind {A B : Type} (m : M A) (k : A -> M B) : M B :=
  fun w => match m w with
           | Some (a, w') => k a w'
           | None => None
           end.
(** Undefined behaviour. *)
Definition undefined {A : Type} : M A := fun _ => None.
Definition lift {A : Type} (o : option A) : M A :=
  match o with Some a => ret a | None => undefined end.

Notation "'do' x <- m ; k" := (bind m (fun x => k))
  (at level 10, x pattern, m at level 100, k at level 200,
   format "'[v' 'do'  x  <-  m ; '/' k ']'").

(** *** The C library *)

(** [malloc(bytes)]: no request above [PTRDIFF_MAX] is ever granted; below,
    the allocator's script decides. A granted block is fresh and its
    contents are indeterminate. *)
Definition malloc (bytes : Z) : M ptr := fun w =>
  if PTRDIFF_MAX <? bytes then Some (NULL, w)
  else match alloc_script w with
       | true :: s =>
           let a := fresh (dom (heap w)) in
           let b := {| blk_dyn := true;
                       blk_cells := replicate (Z.to_nat (bytes / sizeof_double)) Vundef |} in
           Some (Ptr a, with_script s (with_heap (<[a := b]> (heap w)) w))
       | false :: s => Some (NULL, with_script s w)
       | [] => Some (NULL, w)
       end.

(** [calloc(nmemb, size)]: as [malloc], the block zero-filled; a product
    that does not fit [size_t] is refused. *)
Definition calloc (nmemb size : Z) : M ptr := fun w =>
  if (PTRDIFF_MAX <? nmemb * size) then Some (NULL, w)
  else match alloc_script w with
       | true :: s =>
           let a := fresh (dom (heap w)) in
           let b := {| blk_dyn := true;
                       blk_cells := replicate (Z.to_nat (nmemb * size / sizeof_double))
                                              (Vdouble double_zero) |} in
           Some (Ptr a, with_script s (with_heap (<[a := b]> (heap w)) w))
       | false :: s => Some (NULL, with_script s w)
       | [] => Some (NULL, w)
       end.

(** [memcpy(dst, src, bytes)] between two distinct live arrays, each at
    least [bytes] long; anything else is undefined. *)
Definition memcpy (dst src : ptr) (bytes : Z) : M unit := fun w =>
  match dst, src with
  | Ptr d, Ptr s =>
      match heap w !! d, heap w !! s with
      | Some bd, Some bs =>
          let k := Z.to_nat (bytes / sizeof_double) in
          if bool_decide (d ≠ s) && (k <=? length (blk_cells bd))%nat
             && (k <=? length (blk_cells bs))%nat
          then
            let cells := take k (blk_cells bs) ++ drop k (blk_cells bd) in
            let b := {| blk_dyn := blk_dyn bd; blk_cells := cells |} in
            Some (tt, with_heap (<[d := b]> (heap w)) w)
          else None
      | _, _ => None
      end
  | _, _ => None
  end.

(** [free(p)]: nothing for a null pointer, releases a live block obtained
    from the allocator, undefined on anything else. *)
Definition free (p : ptr) : M unit := fun w =>
  match p with
  | NULL => Some (tt, w)
  | Ptr a =>
      match heap w !! a with
      | Some b => if blk_dyn b then Some (tt, with_heap (delete a (heap w)) w) else None
      | None => None
      end
  end.

(** ** The functions of [prima.c] *)

Definition MAXFUN_DIM_DFT : Z := 500.

Section Prima.
Context {hdr : prima_h}.

(** The solver engines ([*_c.f90]) are external: an engine is any function
    from the call, the scalars behind its output pointers and the heap to
    the new scalars and the new heap. *)
Variable engine :
  engine_call -> engine_outs -> gmap addr block -> engine_outs * gmap addr block.

Definition prima_init_options (options : option prima_options_t)
  : M (Z * option prima_options_t) :=
  match options with
  | Some _ =>
      let o := Options.zero in
      let o := Options.set_maxfun 0 o in
      let o := Options.set_rhobeg NAN o in
      let o := Options.set_rhoend NAN o in
      let o := Options.set_iprint PRIMA_MSG_NONE o in
      let o := Options.set_ftarget neg_INFINITY o in
      let o := Options.set_npt 0 o in
      ret (0, Some o)
  | None => ret (PRIMA_NULL_OPTIONS, None)
  end.

Definition prima_init_problem (problem : option prima_problem_t) (n : Z)
  : M (Z * option prima_problem_t) :=
  match problem with
  | Some _ =>
      let p := Problem.zero in
      let p := Problem.set_n n p in
      let p := Problem.set_f0 NAN p in
      ret (0, Some p)
  | None => ret (PRIMA_NULL_PROBLEM, None)
  end.

(** The three conditions of [prima_check_problem] on what the problem
    supplies. *)
Definition has_nonlinear (p : prima_problem_t) : bool :=
  nonnull (Problem.calcfc p) || nonnull (Problem.nlconstr0 p)
  || (0 <? Problem.m_nlcon p).

Definition has_linear (p : prima_problem_t) : bool :=
  (0 <? Problem.m_ineq p) || (0 <? Problem.m_eq p)
  || nonnull (Problem.Aineq p) || nonnull (Problem.bineq p)
  || nonnull (Problem.Aeq p) || nonnull (Problem.beq p).

Definition has_bounds (p : prima_problem_t) : bool :=
  nonnull (Problem.xl p) || nonnull (Problem.xu p).

Definition neqb (a b : Z) : bool := negb (a =? b).

(** The defaults written at the end of a successful check. *)
Definition default_maxfun (p : prima_problem_t) (o : prima_options_t)
  : option prima_options_t :=
  if Options.maxfun o =? 0
  then v ← int_mul MAXFUN_DIM_DFT (Problem.n p); Some (Options.set_maxfun v o)
  else Some o.

Definition default_npt (p : prima_problem_t) (o : prima_options_t)
  : option prima_options_t :=
  if Options.npt o =? 0
  then d ← int_mul 2 (Problem.n p); v ← int_add d 1; Some (Options.set_npt v o)
  else Some o.

Definition prima_check_problem (problem : option prima_problem_t)
    (options : option prima_options_t) (use_constr : Z) (algorithm : Z)
  : M (Z * option prima_options_t) :=
  match problem with
  | None => ret (PRIMA_NULL_PROBLEM, options)
  | Some p =>
      if neqb algorithm PRIMA_COBYLA && has_nonlinear p
      then ret (PRIMA_PROBLEM_SOLVER_MISMATCH_NONLINEAR_CONSTRAINTS, options)
      else if (neqb algorithm PRIMA_COBYLA && neqb algorithm PRIMA_LINCOA)
              && has_linear p
      then ret (PRIMA_PROBLEM_SOLVER_MISMATCH_LINEAR_CONSTRAINTS, options)
      else if (neqb algorithm PRIMA_COBYLA && neqb algorithm PRIMA_LINCOA
               && neqb algorithm PRIMA_BOBYQA) && has_bounds p
      then ret (PRIMA_PROBLEM_SOLVER_MISMATCH_BOUNDS, options)
      else
        match options with
        | None => ret (PRIMA_NULL_OPTIONS, options)
        | Some o =>
            if is_null (Problem.x0 p) then ret (PRIMA_NULL_X0, options)
            else if (neqb use_constr 0 && is_null (Problem.calcfc p))
                    || ((use_constr =? 0) && is_null (Problem.calfun p))
            then ret (PRIMA_NULL_FUNCTION, options)
            else
              do o <- lift (default_maxfun p o);
              do o <- lift (default_npt p o);
              ret (0, Some o)
        end
  end.

Definition prima_init_result (result : option prima_result_t)
    (problem : option prima_problem_t) : M (Z * option prima_result_t) :=
  match result with
  | Some _ =>
      let r := Result.zero in
      let r := Result.set_f double_zero r in
      let r := Result.set_cstrv double_zero r in
      match problem with
      | None => ret (PRIMA_NULL_PROBLEM, Some r)
      | Some p =>
          if is_null (Problem.x0 p) then ret (PRIMA_NULL_X0, Some r)
          else
            do x <- malloc (size_mul (size_of_int (Problem.n p)) sizeof_double);
            let r := Result.set_x x r in
            if is_null x then ret (PRIMA_MEMORY_ALLOCATION_FAILS, Some r)
            else
              do _ <- memcpy x (Problem.x0 p)
                        (size_mul (size_of_int (Problem.n p)) sizeof_double);
              if 0 <? Problem.m_nlcon p then
                do nl <- calloc (size_of_int (Problem.m_nlcon p)) sizeof_double;
                let r := Result.set_nlconstr nl r in
                if is_null nl then ret (PRIMA_MEMORY_ALLOCATION_FAILS, Some r)
                else ret (0, Some r)
              else ret (0, Some r)
      end
  | None => ret (PRIMA_NULL_RESULT, None)
  end.

Definition prima_free_result (result : option prima_result_t)
  : M (Z * option prima_result_t) :=
  match result with
  | Some r =>
      do r <- (if nonnull (Result.nlconstr r)
               then do _ <- free (Result.nlconstr r);
                    ret (Result.set_m_nlcon 0 (Result.set_nlconstr NULL r))
               else ret r);
      do r <- (if nonnull (Result.x r)
               then do _ <- free (Result.x r);
                    ret (Result.set_x NULL r)
               else ret r);
      ret (0, Some r)
  | None => ret (PRIMA_NULL_RESULT, None)
  end.

(** The [case] labels of [prima_get_rc_string] with their strings, in the
    order of the source. *)
Definition rc_strings : list (Z * string) :=
  [ (PRIMA_SMALL_TR_RADIUS, "Trust region radius reaches its lower bound");
    (PRIMA_FTARGET_ACHIEVED, "The target function value is reached");
    (PRIMA_TRSUBP_FAILED, "A trust region step failed to reduce the model");
    (PRIMA_MAXFUN_REACHED, "Maximum number of function evaluations reached");
    (PRIMA_MAXTR_REACHED, "Maximum number of trust region iterations reached");
    (PRIMA_NAN_INF_X, "The input X contains NaN of Inf");
    (PRIMA_NAN_INF_F, "The objective or constraint functions return NaN or +Inf");
    (PRIMA_NAN_INF_MODEL, "NaN or Inf occurs in the model");
    (PRIMA_NO_SPACE_BETWEEN_BOUNDS, "No space between bounds");
    (PRIMA_DAMAGING_ROUNDING, "Rounding errors are becoming damaging");
    (PRIMA_ZERO_LINEAR_CONSTRAINT, "One of the linear constraints has a zero gradient");
    (PRIMA_CALLBACK_TERMINATE, "Callback function requested termination of optimization");
    (PRIMA_INVALID_INPUT, "Invalid input");
    (PRIMA_ASSERTION_FAILS, "Assertion fails");
    (PRIMA_VALIDATION_FAILS, "Validation fails");
    (PRIMA_MEMORY_ALLOCATION_FAILS, "Memory allocation fails");
    (PRIMA_NULL_OPTIONS, "NULL options");
    (PRIMA_NULL_PROBLEM, "NULL problem");
    (PRIMA_NULL_X0, "NULL x0");
    (PRIMA_NULL_RESULT, "NULL result");
    (PRIMA_NULL_FUNCTION, "NULL function");
    (PRIMA_PROBLEM_SOLVER_MISMATCH_NONLINEAR_CONSTRAINTS,
     "Nonlinear constraints were provided for an algorithm that cannot handle them");
    (PRIMA_PROBLEM_SOLVER_MISMATCH_LINEAR_CONSTRAINTS,
     "Linear constraints were provided for an algorithm that cannot handle them");
    (PRIMA_PROBLEM_SOLVER_MISMATCH_BOUNDS,
     "Bounds were provided for an algorithm that cannot handle them") ]%string.

Definition prima_get_rc_string (rc : Z) : cstr :=
  switch rc (map (fun '(c, s) => (c, Lit s)) rc_strings)
         (Lit "Invalid return code").

(** An engine call: the engine reads and writes the scalars behind its
    output pointers and the heap; the call is logged. *)
Definition call_engine (c : engine_call) (outs : engine_outs) : M engine_outs :=
  fun w =>
    let '(o, h) := engine c outs (heap w) in
    Some (o, with_log (c :: engine_log w) (with_heap h w)).

(** The scalars behind [&(result->f)], [&(result->cstrv)], [&(result->nf)]
    and [&info] before a call, and their values stored back after it;
    [cstrv] is stored only by the engines that are given [&(result->cstrv)]. *)
Definition outs_of (r : prima_result_t) (info : Z) : engine_outs :=
  {| e_f := Result.f r; e_cstrv := Result.cstrv r; e_nf := Result.nf r;
     e_info := info |}.

Definition store_outs (has_cstrv : bool) (o : engine_outs) (r : prima_result_t)
  : prima_result_t :=
  let r := Result.set_f (e_f o) r in
  let r := if has_cstrv then Result.set_cstrv (e_cstrv o) r else r in
  Result.set_nf (e_nf o) r.

(** One [case] of the dispatch: the call, then the two statements after
    the [switch]. *)
Definition dispatch (c : engine_call) (has_cstrv : bool)
    (options : prima_options_t) (r : prima_result_t) (info : Z)
  : M (Z * option prima_options_t * option prima_result_t) :=
  do o <- call_engine c (outs_of r info);
  let r := store_outs has_cstrv o r in
  let info := e_info o in
  let r := Result.set_status info r in
  let r := Result.set_message (prima_get_rc_string info) r in
  ret (info, Some options, Some r).

Definition prima_minimize (algorithm : Z) (problem : option prima_problem_t)
    (options : option prima_options_t) (result : option prima_result_t)
  : M (Z * option prima_options_t * option prima_result_t) :=
  let use_constr := if algorithm =? PRIMA_COBYLA then 1 else 0 in
  do (info, options) <- prima_check_problem problem options use_constr algorithm;
  do (info, result) <- (if info =? 0 then prima_init_result result problem
                         else ret (info, result));
  if info =? 0 then
    match problem, options, result with
    | Some p, Some o, Some r =>
        switch algorithm
          [ (PRIMA_BOBYQA,
             dispatch
               (bobyqa_c (Problem.calfun p) (Options.data o) (Problem.n p)
                  (Result.x r) (Problem.xl p) (Problem.xu p)
                  (Options.rhobeg o) (Options.rhoend o) (Options.ftarget o)
                  (Options.maxfun o) (Options.npt o) (Options.iprint o)
                  (Options.callback o))
               false o r info);
            (PRIMA_COBYLA,
             dispatch
               (cobyla_c (Problem.m_nlcon p) (Problem.calcfc p) (Options.data o)
                  (Problem.n p) (Result.x r) (Result.nlconstr r)
                  (Problem.m_ineq p) (Problem.Aineq p) (Problem.bineq p)
                  (Problem.m_eq p) (Problem.Aeq p) (Problem.beq p)
                  (Problem.xl p) (Problem.xu p) (Problem.f0 p)
                  (Problem.nlconstr0 p)
                  (Options.rhobeg o) (Options.rhoend o) (Options.ftarget o)
                  (Options.maxfun o) (Options.iprint o) (Options.callback o))
               true o r info);
            (PRIMA_LINCOA,
             dispatch
               (lincoa_c (Problem.calfun p) (Options.data o) (Problem.n p)
                  (Result.x r)
                  (Problem.m_ineq p) (Problem.Aineq p) (Problem.bineq p)
                  (Problem.m_eq p) (Problem.Aeq p) (Problem.beq p)
                  (Problem.xl p) (Problem.xu p)
                  (Options.rhobeg o) (Options.rhoend o) (Options.ftarget o)
                  (Options.maxfun o) (Options.npt o) (Options.iprint o)
                  (Options.callback o))
               true o r info);
            (PRIMA_NEWUOA,
             dispatch
               (newuoa_c (Problem.calfun p) (Options.data o) (Problem.n p)
                  (Result.x r)
                  (Options.rhobeg o) (Options.rhoend o) (Options.ftarget o)
                  (Options.maxfun o) (Options.npt o) (Options.iprint o)
                  (Options.callback o))
               false o r info);
            (PRIMA_UOBYQA,
             dispatch
               (uobyqa_c (Problem.calfun p) (Options.data o) (Problem.n p)
                  (Result.x r)
                  (Options.rhobeg o) (Options.rhoend o) (Options.ftarget o)
                  (Options.maxfun o) (Options.iprint o) (Options.callback o))
               false o r info) ]
          (ret (PRIMA_INVALID_INPUT, options, result))
    | _, _, _ => undefined
    end
  else ret (info, options, result).

End Prima.

(** ** What the code needs of the header *)

Fixpoint distinct (l : list Z) : bool :=
  match l with
  | [] => true
  | c :: l' => negb (existsb (Z.eqb c) l') && distinct l'
  end.

Section Header.
Context {hdr : prima_h}.

(** The [case] labels of the [switch] of [prima_minimize], in its order. *)
Definition algorithm_labels : list Z :=
  [PRIMA_BOBYQA; PRIMA_COBYLA; PRIMA_LINCOA; PRIMA_NEWUOA; PRIMA_UOBYQA].

(** The [case] labels of the [switch] of [prima_get_rc_string]. *)
Definition rc_labels : list Z := map fst rc_strings.

(** The statuses with which this layer itself reports a failure. *)
Definition failure_codes : list Z :=
  [PRIMA_INVALID_INPUT; PRIMA_MEMORY_ALLOCATION_FAILS; PRIMA_NULL_OPTIONS;
   PRIMA_NULL_PROBLEM; PRIMA_NULL_X0; PRIMA_NULL_RESULT; PRIMA_NULL_FUNCTION;
   PRIMA_PROBLEM_SOLVER_MISMATCH_NONLINEAR_CONSTRAINTS;
   PRIMA_PROBLEM_SOLVER_MISMATCH_LINEAR_CONSTRAINTS;
   PRIMA_PROBLEM_SOLVER_MISMATCH_BOUNDS].

(** C accepts a [switch] only if its labels are pairwise distinct. *)
Definition algorithms_distinct : bool := distinct algorithm_labels.
Definition rc_distinct : bool := distinct rc_labels.

(** [prima_minimize] takes [info == 0] for success: a failure status is
    not 0. *)
Definition failures_nonzero : bool :=
  forallb (fun c => negb (c =? 0)) failure_codes.
End Header.

(** ** The status enumeration *)

Section Statuses.
Context {hdr : prima_h}.

(** The statuses of [prima_rc_t] that [prima.c] names: those the engines
    report, then those of this layer. *)
Definition status_enumeration : list Z :=
  [PRIMA_SMALL_TR_RADIUS; PRIMA_FTARGET_ACHIEVED; PRIMA_TRSUBP_FAILED;
   PRIMA_MAXFUN_REACHED; PRIMA_MAXTR_REACHED; PRIMA_NAN_INF_X;
   PRIMA_NAN_INF_F; PRIMA_NAN_INF_MODEL; PRIMA_NO_SPACE_BETWEEN_BOUNDS;
   PRIMA_DAMAGING_ROUNDING; PRIMA_ZERO_LINEAR_CONSTRAINT;
   PRIMA_CALLBACK_TERMINATE; PRIMA_INVALID_INPUT; PRIMA_ASSERTION_FAILS;
   PRIMA_VALIDATION_FAILS; PRIMA_MEMORY_ALLOCATION_FAILS; PRIMA_NULL_OPTIONS;
   PRIMA_NULL_PROBLEM; PRIMA_NULL_X0; PRIMA_NULL_RESULT; PRIMA_NULL_FUNCTION;
   PRIMA_PROBLEM_SOLVER_MISMATCH_NONLINEAR_CONSTRAINTS;
   PRIMA_PROBLEM_SOLVER_MISMATCH_LINEAR_CONSTRAINTS;
   PRIMA_PROBLEM_SOLVER_MISMATCH_BOUNDS].

(** An enumeration gives its enumerators distinct values. *)
Definition statuses_distinct : bool := distinct status_enumeration.
End Statuses.

(** ** The validator *)

(** The closed enumeration of the algorithms and the features a problem can
    supply, as the specification names them. *)
Inductive algorithm := COBYLA | BOBYQA | LINCOA | NEWUOA | UOBYQA.

Inductive feature := Bounds | LinearConstraints | NonlinearConstraints.

#[global] Instance feature_eq_dec : EqDecision feature.
Proof. solve_decision. Defined.


Section Validator.
Context {hdr : prima_h}.

Definition algorithm_id (a : algorithm) : Z :=
  match a with
  | COBYLA => PRIMA_COBYLA
  | BOBYQA => PRIMA_BOBYQA
  | LINCOA => PRIMA_LINCOA
  | NEWUOA => PRIMA_NEWUOA
  | UOBYQA => PRIMA_UOBYQA
  end.

(** When a problem supplies a feature, by its fields. Nonlinear
    constraints: a constrained evaluator [calcfc], cached constraint values
    [nlconstr0], or a positive number [m_nlcon] of them. Linear
    constraints: a positive number of inequalities [m_ineq] or of
    equalities [m_eq], or one of the arrays [Aineq], [bineq], [Aeq],
    [beq]. Bounds: [xl] or [xu]. *)
Definition supplies (p : prima_problem_t) (f : feature) : Prop :=
  match f with
  | NonlinearConstraints =>
      Problem.calcfc p <> NULL \/ Problem.nlconstr0 p <> NULL
      \/ 0 < Problem.m_nlcon p
  | LinearConstraints =>
      0 < Problem.m_ineq p \/ 0 < Problem.m_eq p
      \/ Problem.Aineq p <> NULL \/ Problem.bineq p <> NULL
      \/ Problem.Aeq p <> NULL \/ Problem.beq p <> NULL
  | Bounds => Problem.xl p <> NULL \/ Problem.xu p <> NULL
  end.

#[global] Instance supplies_dec (p : prima_problem_t) (f : feature) :
  Decision (supplies p f).
Proof. destruct f; unfold supplies; apply _. Defined.




(** The evaluator the constrained flag asks for. *)
Definition required_evaluator (use_constr : Z) (p : prima_problem_t) : ptr :=
  if use_constr =? 0 then Problem.calfun p else Problem.calcfc p.

(** Nothing but the capabilities can make the check fail: the options,
    the starting point and the required evaluator are there, and the
    defaults to derive are representable [int]s. *)
Definition setup_ok (p : prima_problem_t) (options : option prima_options_t)
    (use_constr : Z) : bool :=
  match options with
  | None => false
  | Some o =>
      nonnull (Problem.x0 p) && nonnull (required_evaluator use_constr p)
      && implb (Options.maxfun o =? 0) (in_int (MAXFUN_DIM_DFT * Problem.n p))
      && implb (Options.npt o =? 0)
               (in_int (2 * Problem.n p) && in_int (2 * Problem.n p + 1))
  end.

(** The three capability conditions of the code, all passed. *)
Definition capability_checks_pass (algorithm : Z) (p : prima_problem_t) : bool :=
  negb (neqb algorithm PRIMA_COBYLA && has_nonlinear p)
  && negb ((neqb algorithm PRIMA_COBYLA && neqb algorithm PRIMA_LINCOA)
           && has_linear p)
  && negb ((neqb algorithm PRIMA_COBYLA && neqb algorithm PRIMA_LINCOA
            && neqb algorithm PRIMA_BOBYQA) && has_bounds p).

(** The setup error of the specification: missing options first, then a
    missing starting point, then a missing required evaluator. *)
Definition setup_error (p : prima_problem_t) (options : option prima_options_t)
    (use_constr : Z) : option Z :=
  match options with
  | None => Some PRIMA_NULL_OPTIONS
  | Some _ =>
      if is_null (Problem.x0 p) then Some PRIMA_NULL_X0
      else if is_null (required_evaluator use_constr p)
      then Some PRIMA_NULL_FUNCTION
      else None
  end.

(** The constrained flag [prima_minimize] computes. *)
Definition use_constr_of (algorithm : Z) : Z :=
  if algorithm =? PRIMA_COBYLA then 1 else 0.

(** The options after the defaults of the specification are applied:
    [maxfun = 500 n] if it was zero, [npt = 2 n + 1] if it was zero, every
    other field as it was. *)
Definition with_defaults (p : prima_problem_t) (o : prima_options_t)
  : prima_options_t :=
  Options.mk (Options.rhobeg o) (Options.rhoend o) (Options.ftarget o)
    (if Options.maxfun o =? 0 then 500 * Problem.n p else Options.maxfun o)
    (if Options.npt o =? 0 then 2 * Problem.n p + 1 else Options.npt o)
    (Options.iprint o) (Options.data o) (Options.callback o).
End Validator.

(** ** The lifecycle of the result *)

(** The [int] fields of a problem hold C [int]s. *)
Definition problem_ints (p : prima_problem_t) : bool :=
  in_int (Problem.n p) && in_int (Problem.m_ineq p) && in_int (Problem.m_eq p)
  && in_int (Problem.m_nlcon p).

(** The solution buffer of a fresh result: the first [n] cells of the
    block of [x0], in a block of the allocator. *)
Definition x_copy (p : prima_problem_t) (b0 : block) : block :=
  {| blk_dyn := true;
     blk_cells := take (Z.to_nat (Problem.n p)) (blk_cells b0) |}.

(** Its buffer of nonlinear-constraint values: [m_nlcon] zeros. *)
Definition nlconstr_zeros (p : prima_problem_t) : block :=
  {| blk_dyn := true;
     blk_cells := replicate (Z.to_nat (Problem.m_nlcon p)) (Vdouble double_zero) |}.

(** The block a pointer owns, if any, is live and came from the allocator. *)
Definition owned (h : gmap addr block) (q : ptr) : Prop :=
  match q with
  | NULL => True
  | Ptr a => exists b : block, h !! a = Some b /\ blk_dyn b = true
  end.

(** A result whose buffers can be released: each is null or owned, and
    they are not one and the same block. *)
Definition releasable (h : gmap addr block) (r : prima_result_t) : Prop :=
  owned h (Result.x r) /\ owned h (Result.nlconstr r)
  /\ (Result.x r = NULL \/ Result.x r <> Result.nlconstr r).

(** The heap without the block of a pointer. *)
Definition release (q : ptr) (h : gmap addr block) : gmap addr block :=
  match q with
  | NULL => h
  | Ptr a => delete a h
  end.

Section Lifecycle.
Context {hdr : prima_h}.

(** What [prima_init_result] can come to on a problem with a starting
    point, by the answers of the allocator: the status, the result and the
    world it leaves. *)
Inductive init_outcome (p : prima_problem_t) (w : world)
  : Z -> prima_result_t -> world -> Prop :=
| solution_refused (w' : world) :
    Problem.n p < 0 \/ head (alloc_script w) <> Some true ->
    heap w' = heap w ->
    init_outcome p w PRIMA_MEMORY_ALLOCATION_FAILS Result.zero w'
| solution_only (a a0 : addr) (b0 : block) (s : list bool) (w' : world) :
    0 <= Problem.n p -> alloc_script w = true :: s ->
    Problem.x0 p = Ptr a0 -> heap w !! a0 = Some b0 ->
    Problem.n p <= Z.of_nat (length (blk_cells b0)) ->
    heap w !! a = None ->
    Problem.m_nlcon p <= 0 ->
    heap w' = <[a := x_copy p b0]> (heap w) -> alloc_script w' = s ->
    init_outcome p w 0 (Result.set_x (Ptr a) Result.zero) w'
| nlconstr_refused (a a0 : addr) (b0 : block) (s : list bool) (w' : world) :
    0 <= Problem.n p -> alloc_script w = true :: s ->
    Problem.x0 p = Ptr a0 -> heap w !! a0 = Some b0 ->
    Problem.n p <= Z.of_nat (length (blk_cells b0)) ->
    heap w !! a = None ->
    0 < Problem.m_nlcon p -> head s <> Some true ->
    heap w' = <[a := x_copy p b0]> (heap w) ->
    init_outcome p w PRIMA_MEMORY_ALLOCATION_FAILS
      (Result.set_x (Ptr a) Result.zero) w'
| solution_and_nlconstr (a b a0 : addr) (b0 : block) (s : list bool)
    (w' : world) :
    0 <= Problem.n p -> alloc_script w = true :: true :: s ->
    Problem.x0 p = Ptr a0 -> heap w !! a0 = Some b0 ->
    Problem.n p <= Z.of_nat (length (blk_cells b0)) ->
    heap w !! a = None -> heap w !! b = None -> a <> b ->
    0 < Problem.m_nlcon p ->
    heap w' = <[b := nlconstr_zeros p]> (<[a := x_copy p b0]> (heap w)) ->
    alloc_script w' = s ->
    init_outcome p w 0
      (Result.set_nlconstr (Ptr b) (Result.set_x (Ptr a) Result.zero)) w'.

(** The algorithm an engine belongs to. *)
Definition engine_algorithm (c : engine_call) : Z :=
  match c with
  | cobyla_c _ _ _ _ _ _ _ _ _ _ _ _ _ _ _ _ _ _ _ _ _ _ => PRIMA_COBYLA
  | bobyqa_c _ _ _ _ _ _ _ _ _ _ _ _ _ => PRIMA_BOBYQA
  | newuoa_c _ _ _ _ _ _ _ _ _ _ _ => PRIMA_NEWUOA
  | uobyqa_c _ _ _ _ _ _ _ _ _ _ => PRIMA_UOBYQA
  | lincoa_c _ _ _ _ _ _ _ _ _ _ _ _ _ _ _ _ _ _ _ => PRIMA_LINCOA
  end.
End Lifecycle.

(** ** Concrete inputs *)

(** An assignment of the enumerators, to run the functions on concrete
    inputs: the algorithms numbered from 0, the statuses of the engines
    small, those of this layer from 100 on. *)
Definition sample_h : prima_h := {|
  PRIMA_UOBYQA := 0;
  PRIMA_NEWUOA := 1;
  PRIMA_BOBYQA := 2;
  PRIMA_LINCOA := 3;
  PRIMA_COBYLA := 4;
  PRIMA_MSG_NONE := 0;
  PRIMA_SMALL_TR_RADIUS := 0;
  PRIMA_FTARGET_ACHIEVED := 1;
  PRIMA_TRSUBP_FAILED := 2;
  PRIMA_MAXFUN_REACHED := 3;
  PRIMA_MAXTR_REACHED := 20;
  PRIMA_NAN_INF_X := -1;
  PRIMA_NAN_INF_F := -2;
  PRIMA_NAN_INF_MODEL := -3;
  PRIMA_NO_SPACE_BETWEEN_BOUNDS := 6;
  PRIMA_DAMAGING_ROUNDING := 7;
  PRIMA_ZERO_LINEAR_CONSTRAINT := 8;
  PRIMA_CALLBACK_TERMINATE := 30;
  PRIMA_INVALID_INPUT := 100;
  PRIMA_ASSERTION_FAILS := 101;
  PRIMA_VALIDATION_FAILS := 102;
  PRIMA_MEMORY_ALLOCATION_FAILS := 103;
  PRIMA_NULL_OPTIONS := 110;
  PRIMA_NULL_PROBLEM := 111;
  PRIMA_NULL_X0 := 112;
  PRIMA_NULL_RESULT := 113;
  PRIMA_NULL_FUNCTION := 114;
  PRIMA_PROBLEM_SOLVER_MISMATCH_NONLINEAR_CONSTRAINTS := 115;
  PRIMA_PROBLEM_SOLVER_MISMATCH_LINEAR_CONSTRAINTS := 116;
  PRIMA_PROBLEM_SOLVER_MISMATCH_BOUNDS := 117
|}.

(** An engine that evaluates nothing: it reports one evaluation and the
    status 0, and leaves the heap as it is. *)
Definition sample_engine (c : engine_call) (o : engine_outs)
    (h : gmap addr block) : engine_outs * gmap addr block :=
  ({| e_f := e_f o; e_cstrv := e_cstrv o; e_nf := 1; e_info := 0 |}, h).

(** A caller's array of doubles. *)
Definition caller_array (ds : list double) : block :=
  {| blk_dyn := false; blk_cells := map Vdouble ds |}.

(** The problem of [examples/bobyqa/bobyqa_example.c], with unbounded
    bounds: dimension 2, [x0 = {0.0, 0.0}] at address 1, [xl] and [xu] at
    addresses 2 and 3, the objective function at address 10. *)
Definition sample_problem : prima_problem_t :=
  Problem.mk 2 (Ptr 10%positive) NULL (Ptr 1%positive) (Ptr 2%positive)
    (Ptr 3%positive) 0 NULL NULL 0 NULL NULL
    0 NAN NULL.

(** The same problem without its bounds. *)
Definition sample_unconstrained : prima_problem_t :=
  Problem.mk 2 (Ptr 10%positive) NULL (Ptr 1%positive) NULL NULL 0 NULL NULL
    0 NULL NULL 0 NAN NULL.

(** The options as [prima_init_options] leaves them. *)
Definition sample_options : prima_options_t :=
  Options.mk NAN NAN neg_INFINITY 0 0 0 NULL NULL.

(** The caller's arrays, an allocator with two requests to grant, no engine
    called yet. *)
Definition sample_world : world := {|
  heap := <[1%positive := caller_array [double_zero; double_zero]]>
          (<[2%positive := caller_array [neg_INFINITY; neg_INFINITY]]>
          (<[3%positive := caller_array [INFINITY; INFINITY]]> ∅));
  alloc_script := [true; true];
  engine_log := []
|}.

(** A result with both buffers, at the addresses 5 and 6, and the world
    that holds them beside the caller's arrays. *)
Definition sample_result : prima_result_t :=
  Result.mk (Ptr 5%positive) double_zero double_zero (Ptr 6%positive) 7 0
    NullStr 1.

Definition sample_result_world : world :=
  with_heap
    (<[5%positive := x_copy sample_problem
                       (caller_array [double_zero; double_zero])]>
     (<[6%positive := {| blk_dyn := true; blk_cells := [Vdouble double_zero] |}]>
      (heap sample_world)))
    sample_world.

(** ** The caller's side *)

(** The assignments a caller makes to the fields of its problem and of its
    options, as [examples/bobyqa/bobyqa_example.c] does after the two
    initialisers. *)
Module Caller.
Definition set_x0 (v : ptr) (p : prima_problem_t) : prima_problem_t :=
  Problem.mk (Problem.n p) (Problem.calfun p) (Problem.calcfc p) v
    (Problem.xl p) (Problem.xu p) (Problem.m_ineq p) (Problem.Aineq p)
    (Problem.bineq p) (Problem.m_eq p) (Problem.Aeq p) (Problem.beq p)
    (Problem.m_nlcon p) (Problem.f0 p) (Problem.nlconstr0 p).
Definition set_calfun (v : ptr) (p : prima_problem_t) : prima_problem_t :=
  Problem.mk (Problem.n p) v (Problem.calcfc p) (Problem.x0 p)
    (Problem.xl p) (Problem.xu p) (Problem.m_ineq p) (Problem.Aineq p)
    (Problem.bineq p) (Problem.m_eq p) (Problem.Aeq p) (Problem.beq p)
    (Problem.m_nlcon p) (Problem.f0 p) (Problem.nlconstr0 p).
Definition set_calcfc (v : ptr) (p : prima_problem_t) : prima_problem_t :=
  Problem.mk (Problem.n p) (Problem.calfun p) v (Problem.x0 p)
    (Problem.xl p) (Problem.xu p) (Problem.m_ineq p) (Problem.Aineq p)
    (Problem.bineq p) (Problem.m_eq p) (Problem.Aeq p) (Problem.beq p)
    (Problem.m_nlcon p) (Problem.f0 p) (Problem.nlconstr0 p).
Definition set_xl (v : ptr) (p : prima_problem_t) : prima_problem_t :=
  Problem.mk (Problem.n p) (Problem.calfun p) (Problem.calcfc p) (Problem.x0 p)
    v (Problem.xu p) (Problem.m_ineq p) (Problem.Aineq p)
    (Problem.bineq p) (Problem.m_eq p) (Problem.Aeq p) (Problem.beq p)
    (Problem.m_nlcon p) (Problem.f0 p) (Problem.nlconstr0 p).
Definition set_xu (v : ptr) (p : prima_problem_t) : prima_problem_t :=
  Problem.mk (Problem.n p) (Problem.calfun p) (Problem.calcfc p) (Problem.x0 p)
    (Problem.xl p) v (Problem.m_ineq p) (Problem.Aineq p)
    (Problem.bineq p) (Problem.m_eq p) (Problem.Aeq p) (Problem.beq p)
    (Problem.m_nlcon p) (Problem.f0 p) (Problem.nlconstr0 p).
Definition set_callback (v : ptr) (o : prima_options_t) : prima_options_t :=
  Options.mk (Options.rhobeg o) (Options.rhoend o) (Options.ftarget o)
    (Options.maxfun o) (Options.npt o) (Options.iprint o) (Options.data o) v.

(** The evaluator the caller supplies: [calcfc] for an algorithm run under
    the constrained flag, [calfun] otherwise. *)
Definition set_evaluator (use_constr : Z) (v : ptr) (p : prima_problem_t)
  : prima_problem_t :=
  if use_constr =? 0 then set_calfun v p else set_calcfc v p.
End Caller.

(** The arguments of an engine call. *)
Definition call_n (c : engine_call) : Z :=
  match c with
  | cobyla_c _ _ _ n _ _ _ _ _ _ _ _ _ _ _ _ _ _ _ _ _ _ => n
  | bobyqa_c _ _ n _ _ _ _ _ _ _ _ _ _ => n
  | newuoa_c _ _ n _ _ _ _ _ _ _ _ => n
  | uobyqa_c _ _ n _ _ _ _ _ _ _ => n
  | lincoa_c _ _ n _ _ _ _ _ _ _ _ _ _ _ _ _ _ _ _ => n
  end.

Definition call_x (c : engine_call) : ptr :=
  match c with
  | cobyla_c _ _ _ _ x _ _ _ _ _ _ _ _ _ _ _ _ _ _ _ _ _ => x
  | bobyqa_c _ _ _ x _ _ _ _ _ _ _ _ _ => x
  | newuoa_c _ _ _ x _ _ _ _ _ _ _ => x
  | uobyqa_c _ _ _ x _ _ _ _ _ _ => x
  | lincoa_c _ _ _ x _ _ _ _ _ _ _ _ _ _ _ _ _ _ _ => x
  end.

(** The evaluator: [calcfc] for COBYLA, [calfun] for the others. *)
Definition call_evaluator (c : engine_call) : ptr :=
  match c with
  | cobyla_c _ calcfc _ _ _ _ _ _ _ _ _ _ _ _ _ _ _ _ _ _ _ _ => calcfc
  | bobyqa_c calfun _ _ _ _ _ _ _ _ _ _ _ _ => calfun
  | newuoa_c calfun _ _ _ _ _ _ _ _ _ _ => calfun
  | uobyqa_c calfun _ _ _ _ _ _ _ _ _ => calfun
  | lincoa_c calfun _ _ _ _ _ _ _ _ _ _ _ _ _ _ _ _ _ _ => calfun
  end.

Definition call_maxfun (c : engine_call) : Z :=
  match c with
  | cobyla_c _ _ _ _ _ _ _ _ _ _ _ _ _ _ _ _ _ _ _ maxfun _ _ => maxfun
  | bobyqa_c _ _ _ _ _ _ _ _ _ maxfun _ _ _ => maxfun
  | newuoa_c _ _ _ _ _ _ _ maxfun _ _ _ => maxfun
  | uobyqa_c _ _ _ _ _ _ _ maxfun _ _ => maxfun
  | lincoa_c _ _ _ _ _ _ _ _ _ _ _ _ _ _ _ maxfun _ _ _ => maxfun
  end.

(** An engine that neither allocates nor releases: it leaves the heap with
    the same blocks, each of the kind it had. *)
Definition keeps_blocks
    (engine : engine_call -> engine_outs -> gmap addr block
              -> engine_outs * gmap addr block) : Prop :=
  forall (c : engine_call) (o : engine_outs) (h : gmap addr block),
    dom (snd (engine c o h)) = dom h
    /\ forall (a : addr) (b b' : block),
         h !! a = Some b -> snd (engine c o h) !! a = Some b' ->
         blk_dyn b' = blk_dyn b.


(** ** [examples/bobyqa/bobyqa_example.c] *)

(** *** C on doubles

    The operations of [main] on [double]: IEEE-754 binary64, rounding to
    nearest even. A comparison with a NaN is false. *)
Definition c_sub (x y : double) : double := SFsub 53 1024 x y.
Definition fabs (x : double) : double := SFabs x.
Definition c_gt (x y : double) : bool := SFltb y x.

(** The constants of [main], as the binary64 values nearest to the
    literals: [-1.0], [4.5], [4] converted to [double], [2e-2]
    ([0x1.47ae147ae147bp-6]) and [1e-3] ([0x1.0624dd2f1a9fcp-10]). *)
Definition double_minus_1 : double := S754_finite true 4503599627370496 (-52).
Definition double_4_5 : double := S754_finite false 5066549580791808 (-50).
Definition double_4 : double := S754_finite false 4503599627370496 (-50).
Definition double_2e_2 : double := S754_finite false 5764607523034235 (-58).
Definition double_1e_3 : double := S754_finite false 4611686018427388 (-62).

(** *** Memory of the caller *)

(** An array with an initialiser among the locals of a function: a fresh
    block that is not the allocator's. *)
Definition local_array (ds : list double) : M ptr := fun w =>
  let a := fresh (dom (heap w)) in
  Some (Ptr a,
        with_heap (<[a := {| blk_dyn := false; blk_cells := map Vdouble ds |}]>
                     (heap w)) w).

(** [p[i]] read as an rvalue: the pointer must be to a live array, the
    index within it and the cell initialised. *)
Definition load (p : ptr) (i : nat) : M double := fun w =>
  match p with
  | NULL => None
  | Ptr a =>
      match heap w !! a with
      | Some b =>
          match blk_cells b !! i with
          | Some (Vdouble d) => Some (d, w)
          | _ => None
          end
      | None => None
      end
  end.

(** What the [printf] of [main] is given to print. *)
Record printed := {
  out_x0 : double;
  out_x1 : double;
  out_rc : Z;
  out_msg : string;
  out_evals : Z
}.

Section Example.
Context {hdr : prima_h}.
Variable engine :
  engine_call -> engine_outs -> gmap addr block -> engine_outs * gmap addr block.
(** [PRIMA_MSG_EXIT] of [prima_message_t], which [prima.c] does not use. *)
Variable PRIMA_MSG_EXIT : Z.
(** The addresses of the functions [fun] and [callback] of the example. *)
Variables fun_addr callback_addr : addr.

(** [printf("x*={%g, %g} rc=%d msg='%s' evals=%d\n", result.x[0],
    result.x[1], rc, result.message, result.nf)]: the arguments are
    evaluated; a null string for [%s] is undefined. *)
Definition print_result (result : prima_result_t) (rc : Z) : M printed :=
  do x0 <- load (Result.x result) 0;
  do x1 <- load (Result.x result) 1;
  match Result.message result with
  | NullStr => undefined
  | Lit msg =>
      ret {| out_x0 := x0; out_x1 := x1; out_rc := rc; out_msg := msg;
             out_evals := Result.nf result |}
  end.

(** The test of [main] on the solution: is a coordinate farther than
    [2e-2] from [(4.5, 4)]? *)
Definition far_from_solution (x0 x1 : double) : bool :=
  c_gt (fabs (c_sub x0 double_4_5)) double_2e_2
  || c_gt (fabs (c_sub x1 double_4)) double_2e_2.

(** The statements of [main] after the call of [prima_minimize]: the
    [printf], the test of the solution, the release of the result and the
    [return]. *)
Definition main_report (rc : Z) (result : prima_result_t) : M (Z * printed) :=
  do out <- print_result result rc;
  do x0' <- load (Result.x result) 0;
  do success <-
    (if c_gt (fabs (c_sub x0' double_4_5)) double_2e_2 then ret 1
     else
       do x1' <- load (Result.x result) 1;
       ret (if c_gt (fabs (c_sub x1' double_4)) double_2e_2 then 1 else 0));
  do _ <- prima_free_result (Some result);
  ret (success, out).

(** The problem and the options [main] has set up when it calls
    [prima_minimize], given where its arrays [x0], [xl] and [xu] are. *)
Definition main_problem (x0 xl xu : ptr) : prima_problem_t :=
  Problem.mk 2 (Ptr fun_addr) NULL x0 xl xu 0 NULL NULL 0 NULL NULL 0 NAN NULL.

Definition main_options : prima_options_t :=
  Options.mk NAN double_1e_3 neg_INFINITY 400 0 PRIMA_MSG_EXIT NULL
    (Ptr callback_addr).

(** [main], on whatever the uninitialised [problem], [options] and
    [result] hold at first; it returns the exit status and what it
    printed. *)
Definition main (problem0 : prima_problem_t) (options0 : prima_options_t)
    (result0 : prima_result_t) : M (Z * printed) :=
  let n := 2 in
  do x0 <- local_array [double_zero; double_zero];
  (* set up the problem *)
  do (_, problem) <- prima_init_problem (Some problem0) n;
  match problem with
  | None => undefined
  | Some problem =>
      let problem := Caller.set_x0 x0 problem in
      let problem := Caller.set_calfun (Ptr fun_addr) problem in
      do xl <- local_array [double_minus_1; double_minus_1];
      do xu <- local_array [double_4_5; double_4_5];
      let problem := Caller.set_xl xl problem in
      let problem := Caller.set_xu xu problem in
      (* set up the options *)
      do (_, options) <- prima_init_options (Some options0);
      match options with
      | None => undefined
      | Some options =>
          let options := Options.set_iprint PRIMA_MSG_EXIT options in
          let options := Options.set_rhoend double_1e_3 options in
          do maxfun <- lift (int_mul 200 n);
          let options := Options.set_maxfun maxfun options in
          let options := Caller.set_callback (Ptr callback_addr) options in
          (* run the solver *)
          do (rc, _, result) <-
            prima_minimize engine PRIMA_BOBYQA (Some problem) (Some options)
              (Some result0);
          match result with
          | None => undefined
          | Some result => main_report rc result
          end
      end
  end.
End Example.

(** Where the three arrays [x0], [xl] and [xu] of [main] are put, and the
    heap once they are there. *)
Definition main_x0 (h : gmap addr block) : addr := fresh (dom h).
Definition main_xl (h : gmap addr block) : addr :=
  fresh (dom (<[main_x0 h := caller_array [double_zero; double_zero]]> h)).
Definition main_xu (h : gmap addr block) : addr :=
  fresh (dom (<[main_xl h := caller_array [double_minus_1; double_minus_1]]>
                (<[main_x0 h := caller_array [double_zero; double_zero]]> h))).
Definition main_heap (h : gmap addr block) : gmap addr block :=
  <[main_xu h := caller_array [double_4_5; double_4_5]]>
    (<[main_xl h := caller_array [double_minus_1; double_minus_1]]>
       (<[main_x0 h := caller_array [double_zero; double_zero]]> h)).

(** An engine that works in place: it neither allocates nor releases, and
    it leaves every block with its kind, its length and its initialised
    cells initialised. *)
Definition works_in_place
    (engine : engine_call -> engine_outs -> gmap addr block
              -> engine_outs * gmap addr block) : Prop :=
  forall (c : engine_call) (o : engine_outs) (h : gmap addr block),
    dom (snd (engine c o h)) = dom h
    /\ forall (a : addr) (b b' : block),
         h !! a = Some b -> snd (engine c o h) !! a = Some b' ->
         blk_dyn b' = blk_dyn b
         /\ length (blk_cells b') = length (blk_cells b)
         /\ forall (i : nat) (d : double),
              blk_cells b !! i = Some (Vdouble d) ->
              exists d' : double, blk_cells b' !! i = Some (Vdouble d').

(** An engine that writes NaN over the solution it is given and reports
    the status 0. *)
Definition nan_engine (c : engine_call) (o : engine_outs)
    (h : gmap addr block) : engine_outs * gmap addr block :=
  ({| e_f := NAN; e_cstrv := e_cstrv o; e_nf := 1; e_info := 0 |},
   match call_x c with
   | NULL => h
   | Ptr a =>
       match h !! a with
       | Some b =>
           <[a := {| blk_dyn := blk_dyn b;
                     blk_cells := map (fun _ => Vdouble NAN) (blk_cells b) |}]> h
       | None => h
       end
   end).

(** * Properties *)

(** ** General facts *)

Lemma distinct_not_In (c : Z) (l : list Z) :
  existsb (Z.eqb c) l = false -> ~ In c l.
Proof.
  induction l as [|d l IH]; simpl; [tauto|].
  intros E [->|Hin].
  - rewrite Z.eqb_refl in E. discriminate.
  - apply orb_false_elim in E. destruct E as [_ E]. now apply IH.
Qed.

Lemma distinct_NoDup (l : list Z) : distinct l = true -> List.NoDup l.
Proof.
  induction l as [|c l IH]; simpl; intros E.
  - constructor.
  - apply andb_prop in E. destruct E as [E1 E2].
    constructor; [|now apply IH].
    apply distinct_not_In. now apply negb_true_iff.
Qed.

(** A label of a [switch] with distinct labels selects its own body. *)
Lemma switch_case {A : Type} (v : Z) (cases : list (Z * A)) (d body : A) :
  distinct (map fst cases) = true ->
  In (v, body) cases ->
  switch v cases d = body.
Proof.
  induction cases as [|[c b] cases IH]; simpl; [tauto|].
  intros E Hin. apply andb_prop in E. destruct E as [E1 E2].
  destruct Hin as [Heq|Hin].
  - inversion Heq; subst. now rewrite Z.eqb_refl.
  - destruct (Z.eqb_spec v c) as [->|_]; [|now apply IH].
    exfalso. apply negb_true_iff in E1.
    apply (distinct_not_In _ _ E1).
    change c with (fst (c, body)). now apply in_map.
Qed.

(** A value that is no label goes to [default]. *)
Lemma switch_default {A : Type} (v : Z) (cases : list (Z * A)) (d : A) :
  ~ In v (map fst cases) ->
  switch v cases d = d.
Proof.
  induction cases as [|[c b] cases IH]; simpl; [reflexivity|].
  intros Hn. destruct (Z.eqb_spec v c) as [->|_]; [tauto|].
  apply IH. tauto.
Qed.

(** Whatever the labels, a [switch] runs one of its bodies or [default]. *)
Lemma switch_range {A : Type} (v : Z) (cases : list (Z * A)) (d : A) :
  switch v cases d = d \/ exists c, In (c, switch v cases d) cases /\ v = c.
Proof.
  induction cases as [|[c b] cases IH]; simpl; [now left|].
  destruct (Z.eqb_spec v c) as [->|_].
  - right. exists c. now split; [left|].
  - destruct IH as [IH|(c' & Hin & ->)]; [now left|].
    right. exists c'. now split; [right|].
Qed.

(** ** Initialisation of the problem and of the options *)

Section Init.
Context {hdr : prima_h}.

(** C8: [prima_init_problem] gives the all-zero problem with the
    dimension [n] and the cached objective [f0] set to NaN;
    [prima_init_options] gives the all-zero options with [maxfun = 0],
    [npt = 0], [rhobeg = rhoend = NaN], [ftarget = -infinity] (and
    [iprint = PRIMA_MSG_NONE]). Both return 0 and leave the heap, the
    allocator and the engine log as they were, whatever the destination
    held before. On a null destination they return [PRIMA_NULL_PROBLEM]
    and [PRIMA_NULL_OPTIONS]. *)
Theorem prima_init_sentinels (p : prima_problem_t) (o : prima_options_t)
    (n : Z) (w : world) :
  prima_init_problem (Some p) n w
    = Some (0, Some (Problem.mk n NULL NULL NULL NULL NULL 0 NULL NULL
                       0 NULL NULL 0 NAN NULL), w)
  /\ prima_init_options (Some o) w
    = Some (0, Some (Options.mk NAN NAN neg_INFINITY 0 0 PRIMA_MSG_NONE
                       NULL NULL), w)
  /\ prima_init_problem None n w = Some (PRIMA_NULL_PROBLEM, None, w)
  /\ prima_init_options None w = Some (PRIMA_NULL_OPTIONS, None, w).
Proof. repeat split. Qed.

(** C10: [prima_init_problem] does not look at the dimension: for every
    integer [n], zero and negative ones included, it returns 0 and the
    problem it leaves has the dimension [n]. *)
Theorem prima_init_problem_any_dimension (p : prima_problem_t) (n : Z)
    (w : world) :
  exists p' : prima_problem_t,
    prima_init_problem (Some p) n w = Some (0, Some p', w)
    /\ Problem.n p' = n.
Proof. eexists. split; reflexivity. Qed.
End Init.

(** ** The status translator *)

Section Translator.
Context {hdr : prima_h}.

Lemma rc_cases_labels :
  map fst (map (fun '(c, s) => (c, Lit s)) rc_strings) = rc_labels.
Proof. reflexivity. Qed.

(** C6: [prima_get_rc_string] is defined on every integer. The values of
    the statuses being distinct, each of the 24 statuses of the
    enumeration gives its own string, as listed; every value that is none
    of them gives "Invalid return code"; and the result is never the null
    pointer. *)
Theorem prima_get_rc_string_total :
  statuses_distinct = true ->
  (prima_get_rc_string PRIMA_SMALL_TR_RADIUS
     = Lit "Trust region radius reaches its lower bound"
   /\ prima_get_rc_string PRIMA_FTARGET_ACHIEVED
     = Lit "The target function value is reached"
   /\ prima_get_rc_string PRIMA_TRSUBP_FAILED
     = Lit "A trust region step failed to reduce the model"
   /\ prima_get_rc_string PRIMA_MAXFUN_REACHED
     = Lit "Maximum number of function evaluations reached"
   /\ prima_get_rc_string PRIMA_MAXTR_REACHED
     = Lit "Maximum number of trust region iterations reached"
   /\ prima_get_rc_string PRIMA_NAN_INF_X
     = Lit "The input X contains NaN of Inf"
   /\ prima_get_rc_string PRIMA_NAN_INF_F
     = Lit "The objective or constraint functions return NaN or +Inf"
   /\ prima_get_rc_string PRIMA_NAN_INF_MODEL
     = Lit "NaN or Inf occurs in the model"
   /\ prima_get_rc_string PRIMA_NO_SPACE_BETWEEN_BOUNDS
     = Lit "No space between bounds"
   /\ prima_get_rc_string PRIMA_DAMAGING_ROUNDING
     = Lit "Rounding errors are becoming damaging"
   /\ prima_get_rc_string PRIMA_ZERO_LINEAR_CONSTRAINT
     = Lit "One of the linear constraints has a zero gradient"
   /\ prima_get_rc_string PRIMA_CALLBACK_TERMINATE
     = Lit "Callback function requested termination of optimization"
   /\ prima_get_rc_string PRIMA_INVALID_INPUT = Lit "Invalid input"
   /\ prima_get_rc_string PRIMA_ASSERTION_FAILS = Lit "Assertion fails"
   /\ prima_get_rc_string PRIMA_VALIDATION_FAILS = Lit "Validation fails"
   /\ prima_get_rc_string PRIMA_MEMORY_ALLOCATION_FAILS
     = Lit "Memory allocation fails"
   /\ prima_get_rc_string PRIMA_NULL_OPTIONS = Lit "NULL options"
   /\ prima_get_rc_string PRIMA_NULL_PROBLEM = Lit "NULL problem"
   /\ prima_get_rc_string PRIMA_NULL_X0 = Lit "NULL x0"
   /\ prima_get_rc_string PRIMA_NULL_RESULT = Lit "NULL result"
   /\ prima_get_rc_string PRIMA_NULL_FUNCTION = Lit "NULL function"
   /\ prima_get_rc_string PRIMA_PROBLEM_SOLVER_MISMATCH_NONLINEAR_CONSTRAINTS
     = Lit "Nonlinear constraints were provided for an algorithm that cannot handle them"
   /\ prima_get_rc_string PRIMA_PROBLEM_SOLVER_MISMATCH_LINEAR_CONSTRAINTS
     = Lit "Linear constraints were provided for an algorithm that cannot handle them"
   /\ prima_get_rc_string PRIMA_PROBLEM_SOLVER_MISMATCH_BOUNDS
     = Lit "Bounds were provided for an algorithm that cannot handle them")
  /\ (forall rc : Z,
      ~ In rc status_enumeration ->
      prima_get_rc_string rc = Lit "Invalid return code")
  /\ (forall rc : Z,
      prima_get_rc_string rc <> NullStr
      /\ exists s : string, prima_get_rc_string rc = Lit s).
Proof.
  intros Hd.
  assert (Hk : forall (c : Z) (s : string),
             In (c, s) rc_strings -> prima_get_rc_string c = Lit s).
  { intros c s Hin. unfold prima_get_rc_string.
    apply switch_case.
    - rewrite rc_cases_labels. exact Hd.
    - apply (in_map (fun '(c, s) => (c, Lit s))) in Hin. exact Hin. }
  split; [|split].
  - repeat apply conj; apply Hk; unfold rc_strings;
      repeat (first [left; reflexivity | right]).
  - intros rc Hn. unfold prima_get_rc_string.
    apply switch_default. rewrite rc_cases_labels. exact Hn.
  - intros rc.
    assert (Hs : exists s : string, prima_get_rc_string rc = Lit s).
    { unfold prima_get_rc_string.
      destruct (switch_range rc (map (fun '(c, s) => (c, Lit s)) rc_strings)
                  (Lit "Invalid return code")) as [->|(c & Hin & _)].
      - eauto.
      - apply in_map_iff in Hin. destruct Hin as ([c' s] & Heq & _).
        inversion Heq. eauto. }
    split; [|exact Hs]. destruct Hs as (s & ->). discriminate.
Qed.
End Translator.

Lemma prima_get_rc_string_total_witness :
  @prima_get_rc_string sample_h 0
    = Lit "Trust region radius reaches its lower bound"
  /\ @prima_get_rc_string sample_h 104 = Lit "Invalid return code".
Proof.
  destruct (@prima_get_rc_string_total sample_h eq_refl)
    as ((Hk & _) & Hu & _).
  split.
  - exact Hk.
  - apply Hu. vm_compute. intuition discriminate.
Defined.

(** ** The enumerators *)

Section ValidatorFacts.
Context {hdr : prima_h}.

Lemma algorithms_distinct_spec :
  algorithms_distinct = true ->
  PRIMA_BOBYQA <> PRIMA_COBYLA /\ PRIMA_BOBYQA <> PRIMA_LINCOA
  /\ PRIMA_BOBYQA <> PRIMA_NEWUOA /\ PRIMA_BOBYQA <> PRIMA_UOBYQA
  /\ PRIMA_COBYLA <> PRIMA_LINCOA /\ PRIMA_COBYLA <> PRIMA_NEWUOA
  /\ PRIMA_COBYLA <> PRIMA_UOBYQA /\ PRIMA_LINCOA <> PRIMA_NEWUOA
  /\ PRIMA_LINCOA <> PRIMA_UOBYQA /\ PRIMA_NEWUOA <> PRIMA_UOBYQA.
Proof.
  unfold algorithms_distinct, algorithm_labels. simpl.
  rewrite !andb_true_iff, !negb_true_iff, !orb_false_iff, !Z.eqb_neq.
  tauto.
Qed.

Lemma failures_nonzero_spec :
  failures_nonzero = true -> forall c : Z, In c failure_codes -> c <> 0.
Proof.
  unfold failures_nonzero. intros H c Hin.
  rewrite forallb_forall in H. specialize (H c Hin).
  now apply negb_true_iff, Z.eqb_neq in H.
Qed.
End ValidatorFacts.

(** ** Validation *)

Section ValidatorTheorems.
Context {hdr : prima_h}.
Variable engine :
  engine_call -> engine_outs -> gmap addr block -> engine_outs * gmap addr block.


(** Past the capability conditions, the check reports the setup error. *)
Lemma check_setup_error (algorithm : Z) (p : prima_problem_t)
    (options : option prima_options_t) (use_constr : Z) (w : world) (code : Z) :
  capability_checks_pass algorithm p = true ->
  setup_error p options use_constr = Some code ->
  prima_check_problem (Some p) options use_constr algorithm w
    = Some (code, options, w).
Proof.
  unfold capability_checks_pass, setup_error, required_evaluator,
    prima_check_problem.
  intros Hc He.
  apply andb_prop in Hc. destruct Hc as [Hc Hc3].
  apply andb_prop in Hc. destruct Hc as [Hc1 Hc2].
  apply negb_true_iff in Hc1, Hc2, Hc3. rewrite Hc1, Hc2, Hc3.
  destruct options as [o|]; [|now inversion He].
  destruct (is_null (Problem.x0 p)); [now inversion He|].
  unfold neqb. destruct (use_constr =? 0); simpl in *.
  - destruct (is_null (Problem.calfun p)); [now inversion He|discriminate].
  - destruct (is_null (Problem.calcfc p)); [now inversion He|discriminate].
Qed.

(** Past them and with a complete setup, it accepts and derives the
    defaults. *)
Lemma check_accepts (algorithm : Z) (p : prima_problem_t)
    (o : prima_options_t) (use_constr : Z) (w : world) :
  capability_checks_pass algorithm p = true ->
  setup_ok p (Some o) use_constr = true ->
  prima_check_problem (Some p) (Some o) use_constr algorithm w
    = Some (0, Some (with_defaults p o), w).
Proof.
  unfold capability_checks_pass, setup_ok, required_evaluator,
    prima_check_problem.
  intros Hc Hs.
  apply andb_prop in Hc. destruct Hc as [Hc Hc3].
  apply andb_prop in Hc. destruct Hc as [Hc1 Hc2].
  apply negb_true_iff in Hc1, Hc2, Hc3. rewrite Hc1, Hc2, Hc3.
  apply andb_prop in Hs. destruct Hs as [Hs Hnpt].
  apply andb_prop in Hs. destruct Hs as [Hs Hmax].
  apply andb_prop in Hs. destruct Hs as [Hx0 Hev].
  unfold nonnull in Hx0, Hev. apply negb_true_iff in Hx0, Hev.
  rewrite Hx0.
  assert (Hfun : negb (use_constr =? 0) && is_null (Problem.calcfc p)
                 || (use_constr =? 0) && is_null (Problem.calfun p) = false).
  { destruct (use_constr =? 0); simpl; rewrite Hev; reflexivity. }
  unfold neqb. rewrite Hfun.
  unfold bind, default_maxfun, default_npt, with_defaults, int_mul, int_add.
  destruct o as [rb re ft mf np ip da cb]; simpl in *.
  destruct (mf =? 0); simpl in Hmax.
  - rewrite Hmax. simpl.
    destruct (np =? 0); simpl in Hnpt.
    + apply andb_prop in Hnpt. destruct Hnpt as [Hn1 Hn2].
      rewrite Hn1. simpl. rewrite Hn2. reflexivity.
    + reflexivity.
  - simpl. destruct (np =? 0); simpl in Hnpt.
    + apply andb_prop in Hnpt. destruct Hnpt as [Hn1 Hn2].
      rewrite Hn1. simpl. rewrite Hn2. reflexivity.
    + reflexivity.
Qed.

(** A check that returns 0 has passed every condition, has left the world
    alone and has derived the defaults. *)
Lemma check_zero_inv (algorithm : Z) (problem : option prima_problem_t)
    (options o' : option prima_options_t) (use_constr : Z) (w w' : world) :
  failures_nonzero = true ->
  prima_check_problem problem options use_constr algorithm w
    = Some (0, o', w') ->
  exists (p : prima_problem_t) (o : prima_options_t),
    problem = Some p /\ options = Some o
    /\ capability_checks_pass algorithm p = true
    /\ setup_ok p (Some o) use_constr = true
    /\ w' = w /\ o' = Some (with_defaults p o).
Proof.
  intros Hf H.
  pose proof (failures_nonzero_spec Hf) as Hnz.
  assert (Hne : forall (c : Z) (x : option prima_options_t),
             In c failure_codes -> Some (c, x, w) <> Some (0, o', w')).
  { intros c x Hin E. inversion E. now apply (Hnz c). }
  destruct problem as [p|];
    [|exfalso; revert H; apply Hne; simpl; tauto].
  pose proof H as Hrun.
  revert H. unfold prima_check_problem, ret.
  destruct (neqb algorithm PRIMA_COBYLA && has_nonlinear p) eqn:E1;
    [intros H; exfalso; revert H; apply Hne; simpl; tauto|].
  destruct ((neqb algorithm PRIMA_COBYLA && neqb algorithm PRIMA_LINCOA)
            && has_linear p) eqn:E2;
    [intros H; exfalso; revert H; apply Hne; simpl; tauto|].
  destruct ((neqb algorithm PRIMA_COBYLA && neqb algorithm PRIMA_LINCOA
             && neqb algorithm PRIMA_BOBYQA) && has_bounds p) eqn:E3;
    [intros H; exfalso; revert H; apply Hne; simpl; tauto|].
  destruct options as [o|];
    [|intros H; exfalso; revert H; apply Hne; simpl; tauto].
  destruct (is_null (Problem.x0 p)) eqn:E4;
    [intros H; exfalso; revert H; apply Hne; simpl; tauto|].
  destruct (neqb use_constr 0 && is_null (Problem.calcfc p)
            || (use_constr =? 0) && is_null (Problem.calfun p)) eqn:E5;
    [intros H; exfalso; revert H; apply Hne; simpl; tauto|].
  intros H.
  assert (Hc : capability_checks_pass algorithm p = true).
  { unfold capability_checks_pass. now rewrite E1, E2, E3. }
  assert (Hs : setup_ok p (Some o) use_constr = true).
  { unfold setup_ok, required_evaluator, nonnull. rewrite E4.
    revert H.
    unfold bind, default_maxfun, default_npt, int_mul, int_add, lift, ret,
      undefined.
    unfold neqb in E5.
    destruct (use_constr =? 0); simpl in E5;
      [destruct (is_null (Problem.calfun p)); [discriminate|]
      |destruct (is_null (Problem.calcfc p)); [discriminate|]]; simpl.
    all: destruct (Options.maxfun o =? 0); simpl;
      [destruct (in_int (MAXFUN_DIM_DFT * Problem.n p)); simpl;
       [|discriminate]|].
    all: destruct (Options.npt o =? 0); simpl; try reflexivity.
    all: destruct (in_int (2 * Problem.n p)); simpl; [|discriminate].
    all: destruct (in_int (2 * Problem.n p + 1)); simpl;
      [reflexivity|discriminate]. }
  rewrite (check_accepts algorithm p o use_constr w Hc Hs) in Hrun.
  exists p, o. inversion Hrun. subst. repeat split; assumption.
Qed.





(** On a count of constraints that is not negative, "positive" and the
    "nonzero" of the specification are the same. *)
Lemma supplies_nonlinear_nonzero (p : prima_problem_t) :
  0 <= Problem.m_nlcon p ->
  supplies p NonlinearConstraints
  <-> Problem.calcfc p <> NULL \/ Problem.m_nlcon p <> 0
      \/ Problem.nlconstr0 p <> NULL.
Proof. unfold supplies. intros H. split; intros [?|[?|?]]; auto; lia. Qed.




Lemma setup_error_failure (p : prima_problem_t)
    (options : option prima_options_t) (use_constr code : Z) :
  failures_nonzero = true ->
  setup_error p options use_constr = Some code -> code <> 0.
Proof.
  intros Hf He. apply (failures_nonzero_spec Hf).
  revert He. unfold setup_error.
  destruct options; [|intros [= <-]; simpl; tauto].
  destruct (is_null (Problem.x0 p)); [intros [= <-]; simpl; tauto|].
  destruct (is_null (required_evaluator use_constr p));
    [intros [= <-]; simpl; tauto|discriminate].
Qed.

(** A failed check ends [prima_minimize] at once. *)
Lemma minimize_check_fails (algorithm : Z) (problem : option prima_problem_t)
    (options o1 : option prima_options_t) (result : option prima_result_t)
    (w w1 : world) (code : Z) :
  prima_check_problem problem options (use_constr_of algorithm) algorithm w
    = Some (code, o1, w1) ->
  code <> 0 ->
  prima_minimize engine algorithm problem options result w
    = Some (code, o1, result, w1).
Proof.
  intros H Hne. unfold prima_minimize, bind.
  unfold use_constr_of in H. rewrite H.
  apply Z.eqb_neq in Hne. rewrite Hne. simpl. now rewrite Hne.
Qed.

(** C7: once the three capability conditions have passed,
    [prima_check_problem] reports the setup errors in the order: absent
    options ([PRIMA_NULL_OPTIONS]), then absent [x0] ([PRIMA_NULL_X0]),
    then absent required evaluator, [calcfc] under the constrained flag
    and [calfun] otherwise ([PRIMA_NULL_FUNCTION]). The check changes
    neither the options nor the world, and [prima_minimize] returns the
    same status with the result untouched, nothing allocated and no
    engine called. *)
Theorem prima_check_problem_setup_errors (algorithm : Z)
    (p : prima_problem_t) (options : option prima_options_t)
    (use_constr : Z) (result : option prima_result_t) (w : world) (code : Z) :
  failures_nonzero = true ->
  capability_checks_pass algorithm p = true ->
  setup_error p options use_constr = Some code ->
  prima_check_problem (Some p) options use_constr algorithm w
    = Some (code, options, w)
  /\ (use_constr = use_constr_of algorithm ->
      prima_minimize engine algorithm (Some p) options result w
        = Some (code, options, result, w)).
Proof.
  intros Hf Hc He.
  pose proof (check_setup_error algorithm p options use_constr w code Hc He)
    as Hrun.
  split; [exact Hrun|].
  intros ->. apply minimize_check_fails; [exact Hrun|].
  eapply setup_error_failure; eassumption.
Qed.

(** C3: a [prima_check_problem] that returns 0 was given a problem and
    options, and the options it leaves are those it was given with
    [maxfun] replaced by [500 * n] if it was zero and [npt] replaced by
    [2 * n + 1] if it was zero: no other field of the options changes
    ([rhobeg] and [rhoend] keep their NaN), and the world (the caller's
    arrays, the allocator, the engine log) is as it was. The problem is
    only read: the function has no problem among its results. *)
Theorem prima_check_problem_defaults (algorithm : Z)
    (problem : option prima_problem_t) (options o' : option prima_options_t)
    (use_constr : Z) (w w' : world) :
  failures_nonzero = true ->
  prima_check_problem problem options use_constr algorithm w
    = Some (0, o', w') ->
  exists (p : prima_problem_t) (o : prima_options_t),
    problem = Some p /\ options = Some o /\ w' = w
    /\ o' = Some (Options.mk
                    (Options.rhobeg o) (Options.rhoend o) (Options.ftarget o)
                    (if Options.maxfun o =? 0 then 500 * Problem.n p
                     else Options.maxfun o)
                    (if Options.npt o =? 0 then 2 * Problem.n p + 1
                     else Options.npt o)
                    (Options.iprint o) (Options.data o) (Options.callback o)).
Proof.
  intros Hf H.
  destruct (check_zero_inv _ _ _ _ _ _ _ Hf H)
    as (p & o & Hp & Ho & _ & _ & Hw & Ho').
  exists p, o. repeat split; assumption.
Qed.
End ValidatorTheorems.


Lemma prima_check_problem_setup_errors_witness :
  @prima_minimize sample_h sample_engine 2 (Some sample_problem) None None
     sample_world
    = Some (110, None, None, sample_world).
Proof.
  apply (@prima_check_problem_setup_errors sample_h sample_engine 2
           sample_problem None 0 None sample_world 110 eq_refl eq_refl eq_refl).
  reflexivity.
Defined.

Lemma prima_check_problem_defaults_witness :
  exists (p : prima_problem_t) (o : prima_options_t),
    Some sample_problem = Some p /\ Some sample_options = Some o
    /\ sample_world = sample_world
    /\ Some (Options.mk NAN NAN neg_INFINITY 1000 5 0 NULL NULL)
       = Some (Options.mk
                 (Options.rhobeg o) (Options.rhoend o) (Options.ftarget o)
                 (if Options.maxfun o =? 0 then 500 * Problem.n p
                  else Options.maxfun o)
                 (if Options.npt o =? 0 then 2 * Problem.n p + 1
                  else Options.npt o)
                 (Options.iprint o) (Options.data o) (Options.callback o)).
Proof.
  apply (@prima_check_problem_defaults sample_h 2 (Some sample_problem)
           (Some sample_options)
           (Some (Options.mk NAN NAN neg_INFINITY 1000 5 0 NULL NULL))
           0 sample_world sample_world eq_refl).
  reflexivity.
Defined.

(** ** Creation and release of the result *)

Lemma in_int_range (z : Z) : in_int z = true <-> INT_MIN <= z <= INT_MAX.
Proof. unfold in_int. rewrite andb_true_iff, !Z.leb_le. tauto. Qed.

(** The size in bytes of [n] doubles, for an [int] [n] that is not
    negative. *)
Lemma size_of_doubles (n : Z) :
  0 <= n <= INT_MAX ->
  size_mul (size_of_int n) sizeof_double = 8 * n.
Proof.
  unfold size_mul, size_of_int, sizeof_double, SIZE_MODULUS, INT_MAX.
  intros H. rewrite (Z.mod_small n) by lia. rewrite Z.mod_small by lia. lia.
Qed.

(** A negative [int] converts to a size no allocator grants. *)
Lemma size_of_negative (n : Z) :
  INT_MIN <= n < 0 ->
  PTRDIFF_MAX < size_mul (size_of_int n) sizeof_double.
Proof.
  unfold size_mul, size_of_int, sizeof_double, SIZE_MODULUS, INT_MIN,
    PTRDIFF_MAX.
  intros H.
  replace (n mod 2 ^ 64) with (n + 2 ^ 64)
    by (apply (Z.mod_unique n (2 ^ 64) (-1)); lia).
  replace ((n + 2 ^ 64) * 8 mod 2 ^ 64) with (8 * n + 2 ^ 64)
    by (apply (Z.mod_unique _ (2 ^ 64) 7); lia).
  lia.
Qed.

Section LifecycleFacts.
Context {hdr : prima_h}.

(** Releasing the buffers of a result. *)
Lemma free_result_run (r : prima_result_t) (w : world) :
  releasable (heap w) r ->
  prima_free_result (Some r) w
    = Some (0,
            Some (Result.mk NULL (Result.f r) (Result.cstrv r) NULL
                    (Result.nf r) (Result.status r) (Result.message r)
                    (if nonnull (Result.nlconstr r) then 0
                     else Result._m_nlcon r)),
            with_heap (release (Result.x r) (release (Result.nlconstr r) (heap w))) w).
Proof.
  destruct r as [x f c nl nf st msg m]. unfold releasable, owned. simpl.
  intros (Hx & Hnl & Hd).
  unfold prima_free_result, bind, free, ret. simpl.
  destruct nl as [|b]; simpl.
  - destruct x as [|a]; simpl.
    + destruct w; reflexivity.
    + destruct Hx as (ba & Ha & Hdyn). rewrite Ha, Hdyn. reflexivity.
  - destruct Hnl as (bb & Hb & Hdynb). rewrite Hb, Hdynb. simpl.
    destruct x as [|a]; simpl.
    + reflexivity.
    + destruct Hx as (ba & Ha & Hdyn).
      assert (Hab : b <> a) by (destruct Hd as [Hd|Hd]; congruence).
      rewrite lookup_delete_ne by exact Hab.
      rewrite Ha, Hdyn. reflexivity.
Qed.

(** A result without buffers is released by doing nothing. *)
Lemma free_result_released (r : prima_result_t) (w : world) :
  Result.x r = NULL -> Result.nlconstr r = NULL ->
  prima_free_result (Some r) w = Some (0, Some r, w).
Proof.
  destruct r as [x f c nl nf st msg m]. simpl. intros -> ->. reflexivity.
Qed.
End LifecycleFacts.

Section InitResult.
Context {hdr : prima_h}.

Lemma fresh_heap (h : gmap addr block) : h !! fresh (dom h) = None.
Proof. apply not_elem_of_dom. apply is_fresh. Qed.

Lemma bind_inv {A B : Type} (m : M A) (k : A -> M B) (w : world)
    (r : B * world) :
  bind m k w = Some r ->
  exists (a : A) (w1 : world), m w = Some (a, w1) /\ k a w1 = Some r.
Proof.
  unfold bind. destruct (m w) as [[a w1]|]; [|discriminate]. eauto.
Qed.

(** The two answers of [malloc]. *)
Lemma malloc_inv (bytes : Z) (w w' : world) (q : ptr) :
  malloc bytes w = Some (q, w') ->
  (q = NULL /\ heap w' = heap w /\ engine_log w' = engine_log w
   /\ (PTRDIFF_MAX < bytes \/ head (alloc_script w) <> Some true))
  \/ (exists s : list bool,
        bytes <= PTRDIFF_MAX /\ alloc_script w = true :: s
        /\ q = Ptr (fresh (dom (heap w)))
        /\ w' = with_script s
                  (with_heap
                     (<[fresh (dom (heap w)) :=
                          {| blk_dyn := true;
                             blk_cells := replicate (Z.to_nat (bytes / sizeof_double))
                                                    Vundef |}]> (heap w)) w)).
Proof.
  unfold malloc. destruct (Z.ltb_spec PTRDIFF_MAX bytes) as [Hlt|Hle].
  - intros [= <- <-]. left. auto.
  - destruct (alloc_script w) as [|[|] s] eqn:Hs.
    + intros [= <- <-]. left. repeat split; try reflexivity. right. simpl. discriminate.
    + intros [= <- <-]. right. exists s. auto.
    + intros [= <- <-]. left. repeat split; try reflexivity. right. simpl. discriminate.
Qed.

(** The two answers of [calloc]. *)
Lemma calloc_inv (nmemb size : Z) (w w' : world) (q : ptr) :
  calloc nmemb size w = Some (q, w') ->
  (q = NULL /\ heap w' = heap w /\ engine_log w' = engine_log w
   /\ (PTRDIFF_MAX < nmemb * size \/ head (alloc_script w) <> Some true))
  \/ (exists s : list bool,
        nmemb * size <= PTRDIFF_MAX /\ alloc_script w = true :: s
        /\ q = Ptr (fresh (dom (heap w)))
        /\ w' = with_script s
                  (with_heap
                     (<[fresh (dom (heap w)) :=
                          {| blk_dyn := true;
                             blk_cells := replicate
                                            (Z.to_nat (nmemb * size / sizeof_double))
                                            (Vdouble double_zero) |}]> (heap w)) w)).
Proof.
  unfold calloc. destruct (Z.ltb_spec PTRDIFF_MAX (nmemb * size)) as [Hlt|Hle].
  - intros [= <- <-]. left. auto.
  - destruct (alloc_script w) as [|[|] s] eqn:Hs.
    + intros [= <- <-]. left. repeat split; try reflexivity. right. simpl. discriminate.
    + intros [= <- <-]. right. exists s. auto.
    + intros [= <- <-]. left. repeat split; try reflexivity. right. simpl. discriminate.
Qed.

(** [memcpy] between two distinct live blocks that are long enough. *)
Lemma memcpy_run (d s : addr) (bd bs : block) (bytes : Z) (w : world) :
  d <> s -> heap w !! d = Some bd -> heap w !! s = Some bs ->
  (Z.to_nat (bytes / sizeof_double) <= length (blk_cells bd))%nat ->
  (Z.to_nat (bytes / sizeof_double) <= length (blk_cells bs))%nat ->
  memcpy (Ptr d) (Ptr s) bytes w
    = Some (tt,
            with_heap
              (<[d := {| blk_dyn := blk_dyn bd;
                         blk_cells :=
                           take (Z.to_nat (bytes / sizeof_double)) (blk_cells bs)
                           ++ drop (Z.to_nat (bytes / sizeof_double)) (blk_cells bd) |}]>
                 (heap w)) w).
Proof.
  intros Hne Hd Hs Hld Hls. unfold memcpy. rewrite Hd, Hs.
  rewrite bool_decide_eq_true_2 by exact Hne.
  apply Nat.leb_le in Hld, Hls. rewrite Hld, Hls. reflexivity.
Qed.

(** It is defined in no other case. *)
Lemma memcpy_inv (dst src : ptr) (bytes : Z) (w w' : world) (u : unit) :
  memcpy dst src bytes w = Some (u, w') ->
  exists (d s : addr) (bd bs : block),
    dst = Ptr d /\ src = Ptr s /\ d <> s
    /\ heap w !! d = Some bd /\ heap w !! s = Some bs
    /\ (Z.to_nat (bytes / sizeof_double) <= length (blk_cells bd))%nat
    /\ (Z.to_nat (bytes / sizeof_double) <= length (blk_cells bs))%nat
    /\ w' = with_heap
               (<[d := {| blk_dyn := blk_dyn bd;
                          blk_cells :=
                            take (Z.to_nat (bytes / sizeof_double)) (blk_cells bs)
                            ++ drop (Z.to_nat (bytes / sizeof_double)) (blk_cells bd) |}]>
                  (heap w)) w.
Proof.
  unfold memcpy. destruct dst as [|d]; [discriminate|].
  destruct src as [|s]; [discriminate|].
  destruct (heap w !! d) as [bd|] eqn:Hd; [|discriminate].
  destruct (heap w !! s) as [bs|] eqn:Hs; [|discriminate].
  destruct (bool_decide (d ≠ s)) eqn:Hne; [|discriminate].
  apply bool_decide_eq_true_1 in Hne.
  destruct (Nat.leb_spec (Z.to_nat (bytes / sizeof_double)) (length (blk_cells bd)));
    [|discriminate].
  destruct (Nat.leb_spec (Z.to_nat (bytes / sizeof_double)) (length (blk_cells bs)));
    [|discriminate].
  intros [= <-]. exists d, s, bd, bs. auto 10.
Qed.

(** The solution buffer once [x0] is copied into the fresh block. *)
Lemma copy_into_fresh (p : prima_problem_t) (b0 : block) :
  0 <= Problem.n p ->
  Problem.n p <= Z.of_nat (length (blk_cells b0)) ->
  {| blk_dyn := true;
     blk_cells :=
       take (Z.to_nat (8 * Problem.n p / sizeof_double)) (blk_cells b0)
       ++ drop (Z.to_nat (8 * Problem.n p / sizeof_double))
            (replicate (Z.to_nat (8 * Problem.n p / sizeof_double)) Vundef) |}
  = x_copy p b0.
Proof.
  intros H0 Hlen. unfold x_copy, sizeof_double.
  replace (8 * Problem.n p / 8) with (Problem.n p)
    by (rewrite Z.mul_comm, Z.div_mul; lia).
  rewrite drop_ge by (rewrite length_replicate; lia).
  now rewrite app_nil_r.
Qed.

(** [prima_init_result] read backwards: whatever it returns on a problem
    with a starting point is one of the four outcomes, and no engine is
    called. *)
Lemma init_result_inv (r0 : prima_result_t) (p : prima_problem_t) (w w' : world)
    (rc : Z) (r' : option prima_result_t) :
  problem_ints p = true ->
  is_null (Problem.x0 p) = false ->
  prima_init_result (Some r0) (Some p) w = Some (rc, r', w') ->
  exists r1 : prima_result_t,
    r' = Some r1 /\ init_outcome p w rc r1 w' /\ engine_log w' = engine_log w.
Proof.
  intros Hints Hx0.
  unfold problem_ints in Hints.
  apply andb_prop in Hints. destruct Hints as [Hints Hm].
  apply andb_prop in Hints. destruct Hints as [Hints _].
  apply andb_prop in Hints. destruct Hints as [Hn _].
  apply in_int_range in Hn, Hm.
  unfold prima_init_result. rewrite Hx0. intros H.
  apply bind_inv in H. destruct H as (x & w1 & Hmalloc & H).
  apply malloc_inv in Hmalloc.
  destruct Hmalloc as [(-> & Hh & Hl & Href)|(s & Hle & Hs & -> & ->)].
  - (* the solution buffer is refused *)
    simpl in H. injection H as <- <- <-.
    eexists. split; [reflexivity|]. split; [|exact Hl].
    apply solution_refused; [|exact Hh].
    destruct Href as [Hbig|Hscript]; [|now right].
    left. destruct (Z_lt_le_dec (Problem.n p) 0) as [Hneg|Hpos]; [exact Hneg|].
    rewrite size_of_doubles in Hbig by lia.
    unfold PTRDIFF_MAX, INT_MAX in *. lia.
  - (* it is granted *)
    assert (Hpos : 0 <= Problem.n p).
    { destruct (Z_lt_le_dec (Problem.n p) 0) as [Hneg|Hpos]; [|exact Hpos].
      pose proof (size_of_negative (Problem.n p) ltac:(lia)). lia. }
    rewrite size_of_doubles in * by lia.
    set (a := fresh (dom (heap w))) in *.
    pose proof (fresh_heap (heap w)) as Ha. fold a in Ha.
    simpl is_null in H. cbv iota in H.
    apply bind_inv in H. destruct H as (u & w2 & Hcpy & H).
    apply memcpy_inv in Hcpy.
    destruct Hcpy as (d & a0 & bd & b0 & Hd & Hp0 & Hne & Hbd & Hb0 & Hld & Hl0 & ->).
    injection Hd as <-. simpl in Hbd, Hb0.
    rewrite lookup_insert_eq in Hbd. injection Hbd as <-.
    rewrite lookup_insert_ne in Hb0 by exact Hne.
    assert (Hlen : Problem.n p <= Z.of_nat (length (blk_cells b0))).
    { revert Hl0. unfold sizeof_double.
      replace (8 * Problem.n p / 8) with (Problem.n p)
        by (rewrite Z.mul_comm, Z.div_mul; lia).
      lia. }
    simpl in H. rewrite insert_insert_eq in H.
    rewrite (copy_into_fresh p b0 Hpos Hlen) in H.
    destruct (Z.ltb_spec 0 (Problem.m_nlcon p)) as [Hnl|Hnl].
    + apply bind_inv in H. destruct H as (nl & w3 & Hcalloc & H).
      apply calloc_inv in Hcalloc.
      destruct Hcalloc as [(-> & Hh & Hl & Href)|(s' & Hle' & Hs' & -> & ->)].
      * simpl in H. injection H as <- <- <-.
        eexists. split; [reflexivity|]. split; [|exact Hl].
        eapply nlconstr_refused; try eassumption.
        destruct Href as [Hbig|Hscript]; [|exact Hscript].
        exfalso. revert Hbig.
        unfold size_of_int, sizeof_double, SIZE_MODULUS, PTRDIFF_MAX, INT_MAX in *.
        rewrite Z.mod_small by lia. lia.
      * simpl in H. injection H as <- <- <-.
        eexists. split; [reflexivity|]. split; [|reflexivity].
        simpl in Hs'. subst s.
        set (h1 := <[a := x_copy p b0]> (heap w)).
        pose proof (fresh_heap h1) as Hb. 
        set (b := fresh (dom h1)) in *.
        assert (Hab : a <> b).
        { intros <-. unfold h1 in Hb. rewrite lookup_insert_eq in Hb.
          discriminate. }
        eapply (solution_and_nlconstr p w a b a0 b0 s'); try eassumption.
        -- unfold h1 in Hb. now rewrite lookup_insert_ne in Hb.
        -- simpl. unfold nlconstr_zeros, size_of_int, sizeof_double, SIZE_MODULUS.
           unfold INT_MAX in *.
           rewrite Z.mod_small by lia. rewrite Z.div_mul by lia. reflexivity.
        -- reflexivity.
    + simpl in H. injection H as <- <- <-.
      eexists. split; [reflexivity|]. split; [|reflexivity].
      eapply (solution_only p w a a0 b0 s); try eassumption; reflexivity.
Qed.
End InitResult.

Section ResultLifecycle.
Context {hdr : prima_h}.

Lemma malloc_total (bytes : Z) (w : world) :
  exists (q : ptr) (w' : world), malloc bytes w = Some (q, w').
Proof.
  unfold malloc. destruct (PTRDIFF_MAX <? bytes); [eauto|].
  destruct (alloc_script w) as [|[|] s]; eauto.
Qed.

Lemma calloc_total (nmemb size : Z) (w : world) :
  exists (q : ptr) (w' : world), calloc nmemb size w = Some (q, w').
Proof.
  unfold calloc. destruct (PTRDIFF_MAX <? nmemb * size); [eauto|].
  destruct (alloc_script w) as [|[|] s]; eauto.
Qed.

(** [prima_init_result] read forwards: with [x0] a live array of at least
    [n] cells it does return. *)
Lemma init_result_defined (r0 : prima_result_t) (p : prima_problem_t)
    (w : world) (a0 : addr) (b0 : block) :
  problem_ints p = true ->
  Problem.x0 p = Ptr a0 -> heap w !! a0 = Some b0 ->
  Problem.n p <= Z.of_nat (length (blk_cells b0)) ->
  exists (rc : Z) (r' : option prima_result_t) (w' : world),
    prima_init_result (Some r0) (Some p) w = Some (rc, r', w').
Proof.
  intros Hints Hx0 Hb0 Hlen.
  unfold problem_ints in Hints.
  apply andb_prop in Hints. destruct Hints as [Hints _].
  apply andb_prop in Hints. destruct Hints as [Hints _].
  apply andb_prop in Hints. destruct Hints as [Hn _].
  apply in_int_range in Hn.
  unfold prima_init_result. rewrite Hx0.
  change (is_null (Ptr a0)) with false. cbv iota.
  unfold bind at 1.
  destruct (malloc_total (size_mul (size_of_int (Problem.n p)) sizeof_double) w)
    as (q & w1 & Hmalloc).
  rewrite Hmalloc.
  apply malloc_inv in Hmalloc.
  destruct Hmalloc as [(-> & _)|(s & Hle & Hs & -> & ->)]; [simpl; eauto|].
  assert (Hpos : 0 <= Problem.n p).
  { destruct (Z_lt_le_dec (Problem.n p) 0) as [Hneg|Hpos]; [|exact Hpos].
    pose proof (size_of_negative (Problem.n p) ltac:(lia)). lia. }
  rewrite size_of_doubles in * by lia.
  change (is_null (Ptr (fresh (dom (heap w))))) with false. cbv iota.
  unfold bind at 1.
  pose proof (fresh_heap (heap w)) as Ha.
  erewrite memcpy_run.
  - destruct (0 <? Problem.m_nlcon p); [|simpl; eauto].
    unfold bind.
    match goal with
    | |- context [calloc ?n ?sz ?w0] =>
        destruct (calloc_total n sz w0) as (nl & w3 & Hcalloc); rewrite Hcalloc
    end.
    destruct nl; simpl; eauto.
  - intros E. rewrite E in Ha. congruence.
  - simpl. apply lookup_insert_eq.
  - simpl. rewrite lookup_insert_ne; [exact Hb0|].
    intros E. rewrite E in Ha. congruence.
  - simpl. rewrite length_replicate. lia.
  - unfold sizeof_double.
    replace (8 * Problem.n p / 8) with (Problem.n p)
      by (rewrite Z.mul_comm, Z.div_mul; lia).
    lia.
Qed.

(** C4: given a result to fill and a problem whose [x0] is a live array of
    at least [n] cells, [prima_init_result] returns, with one of the four
    outcomes of [init_outcome]. The solution buffer, when granted, is a
    fresh block of the allocator, other than the block of [x0], holding the
    first [n] cells of [x0], and the block of [x0] is as it was. A buffer
    of nonlinear-constraint values is attached only if [m_nlcon > 0], and
    it is a fresh block of [m_nlcon] zeros; on success (status 0) it is
    attached exactly if [m_nlcon > 0]. Any other status is
    [PRIMA_MEMORY_ALLOCATION_FAILS], every scalar of the result is zero and
    the buffer obtained so far stays attached. In every outcome no engine is
    called and [prima_free_result] then returns 0, gives the heap back as
    it was before and leaves the result all zero. *)
Theorem prima_init_result_buffers (r0 : prima_result_t) (p : prima_problem_t)
    (w : world) (a0 : addr) (b0 : block) :
  failures_nonzero = true ->
  problem_ints p = true ->
  Problem.x0 p = Ptr a0 -> heap w !! a0 = Some b0 ->
  Problem.n p <= Z.of_nat (length (blk_cells b0)) ->
  exists (rc : Z) (r' : prima_result_t) (w' : world),
    prima_init_result (Some r0) (Some p) w = Some (rc, Some r', w')
    /\ init_outcome p w rc r' w'
    /\ heap w' !! a0 = Some b0
    /\ (forall a : addr, Result.x r' = Ptr a ->
          a <> a0 /\ heap w !! a = None /\ heap w' !! a = Some (x_copy p b0)
          /\ Z.of_nat (length (blk_cells (x_copy p b0))) = Problem.n p)
    /\ (forall b : addr, Result.nlconstr r' = Ptr b ->
          0 < Problem.m_nlcon p /\ heap w !! b = None
          /\ heap w' !! b = Some (nlconstr_zeros p))
    /\ (rc = 0 ->
          Result.x r' <> NULL
          /\ (Result.nlconstr r' <> NULL <-> 0 < Problem.m_nlcon p))
    /\ (rc <> 0 -> rc = PRIMA_MEMORY_ALLOCATION_FAILS)
    /\ r' = Result.set_nlconstr (Result.nlconstr r')
              (Result.set_x (Result.x r') Result.zero)
    /\ engine_log w' = engine_log w
    /\ exists w'' : world,
         prima_free_result (Some r') w' = Some (0, Some Result.zero, w'')
         /\ heap w'' = heap w.
Proof.
  intros Hf Hints Hx0 Hb0 Hlen.
  destruct (init_result_defined r0 p w a0 b0 Hints Hx0 Hb0 Hlen)
    as (rc & r' & w' & Hrun).
  assert (Hnn : is_null (Problem.x0 p) = false) by now rewrite Hx0.
  destruct (init_result_inv r0 p w w' rc r' Hints Hnn Hrun)
    as (r1 & -> & Hout & Hlog).
  assert (Hmem : PRIMA_MEMORY_ALLOCATION_FAILS <> 0)
    by (apply (failures_nonzero_spec Hf); simpl; tauto).
  exists rc, r1, w'. split; [exact Hrun|]. split; [exact Hout|].
  destruct Hout as [w' Href Hh
                   |a a0' b0' s w' Hpos Hs Hx0' Hb0' Hlen' Ha Hnl Hh Hs'
                   |a a0' b0' s w' Hpos Hs Hx0' Hb0' Hlen' Ha Hnl Href Hh
                   |a b a0' b0' s w' Hpos Hs Hx0' Hb0' Hlen' Ha Hb Hab Hnl Hh Hs'].
  all: try (rewrite Hx0 in Hx0'; injection Hx0' as <-;
            rewrite Hb0 in Hb0'; injection Hb0' as <-).
  all: try (assert (Haa0 : a <> a0) by (intros ->; congruence)).
  all: rewrite Hh.
  all: assert (Hcells : 0 <= Problem.n p ->
                 Z.of_nat (length (blk_cells (x_copy p b0))) = Problem.n p)
    by (intros ?; unfold x_copy; simpl; rewrite length_take; lia).
  - (* the solution buffer is refused *)
    repeat split; try discriminate; try congruence.
    rewrite free_result_released by reflexivity.
    eexists. split; [reflexivity|exact Hh].
  - (* the solution buffer alone *)
    split; [now rewrite lookup_insert_ne|].
    split; [intros a' [= <-]; rewrite lookup_insert_eq; auto|].
    split; [discriminate|].
    split; [intros _; split; [discriminate|simpl; split; [congruence|lia]]|].
    split; [congruence|]. split; [reflexivity|]. split; [exact Hlog|].
    rewrite free_result_run.
    + eexists. split; [reflexivity|]. simpl. rewrite Hh.
      now apply delete_insert_id.
    + unfold releasable, owned. simpl. rewrite Hh, lookup_insert_eq.
      split; [eexists; split; reflexivity|]. split; [exact I|].
      right. discriminate.
  - (* the buffer of constraint values is refused *)
    split; [now rewrite lookup_insert_ne|].
    split; [intros a' [= <-]; rewrite lookup_insert_eq; auto|].
    split; [discriminate|].
    split; [congruence|].
    split; [reflexivity|]. split; [reflexivity|]. split; [exact Hlog|].
    rewrite free_result_run.
    + eexists. split; [reflexivity|]. simpl. rewrite Hh.
      now apply delete_insert_id.
    + unfold releasable, owned. simpl. rewrite Hh, lookup_insert_eq.
      split; [eexists; split; reflexivity|]. split; [exact I|].
      right. discriminate.
  - (* both buffers *)
    assert (Hba0 : b <> a0) by (intros ->; congruence).
    split; [now rewrite !lookup_insert_ne|].
    split; [intros a' [= <-];
            rewrite lookup_insert_ne, lookup_insert_eq by congruence; auto|].
    split; [intros b' [= <-]; rewrite lookup_insert_eq; auto|].
    split; [intros _; split; [discriminate|simpl; split; [auto|discriminate]]|].
    split; [congruence|]. split; [reflexivity|]. split; [exact Hlog|].
    rewrite free_result_run.
    + eexists. split; [reflexivity|]. simpl. rewrite Hh.
      rewrite delete_insert_id
        by (rewrite lookup_insert_ne by congruence; exact Hb).
      now apply delete_insert_id.
    + unfold releasable, owned. simpl. rewrite Hh.
      rewrite lookup_insert_eq, lookup_insert_ne, lookup_insert_eq by congruence.
      split; [eexists; split; reflexivity|].
      split; [eexists; split; reflexivity|].
      right. congruence.
Qed.
End ResultLifecycle.

Lemma prima_init_result_buffers_witness :
  exists (rc : Z) (r' : prima_result_t) (w' : world),
    @prima_init_result sample_h (Some Result.zero) (Some sample_problem)
       sample_world = Some (rc, Some r', w')
    /\ heap w' !! 1%positive = Some (caller_array [double_zero; double_zero]).
Proof.
  destruct (@prima_init_result_buffers sample_h Result.zero sample_problem
              sample_world 1%positive
              (caller_array [double_zero; double_zero])
              eq_refl eq_refl eq_refl eq_refl ltac:(simpl; lia))
    as (rc & r' & w' & Hrun & _ & Hx0 & _).
  exists rc, r', w'. split; assumption.
Defined.

Section Release.
Context {hdr : prima_h}.

(** C5 (amended): on a result whose buffers are null or owned blocks,
    [prima_free_result] returns 0, takes the two blocks off the heap and
    nulls the two pointers; it zeroes the recorded count of nonlinear
    constraints when the buffer of constraint values was there, and leaves
    the count as it was otherwise; the other fields are untouched. Called
    again on the result it left, it returns 0 and changes nothing. *)
Theorem prima_free_result_releases (r : prima_result_t) (w : world) :
  releasable (heap w) r ->
  let r' := Result.mk NULL (Result.f r) (Result.cstrv r) NULL (Result.nf r)
              (Result.status r) (Result.message r)
              (if nonnull (Result.nlconstr r) then 0 else Result._m_nlcon r) in
  let w' := with_heap (release (Result.x r)
                         (release (Result.nlconstr r) (heap w))) w in
  prima_free_result (Some r) w = Some (0, Some r', w')
  /\ prima_free_result (Some r') w' = Some (0, Some r', w').
Proof.
  intros Hr. split.
  - now apply free_result_run.
  - now apply free_result_released.
Qed.
End Release.

Lemma prima_free_result_releases_witness :
  @prima_free_result sample_h (Some sample_result) sample_result_world
  = Some (0,
          Some (Result.mk NULL double_zero double_zero NULL 7 0 NullStr 0),
          with_heap (heap sample_world) sample_result_world).
Proof.
  destruct (@prima_free_result_releases sample_h sample_result
              sample_result_world) as [Hrun _].
  - split; [|split].
    + exists (x_copy sample_problem (caller_array [double_zero; double_zero])).
      split; reflexivity.
    + exists {| blk_dyn := true; blk_cells := [Vdouble double_zero] |}.
      split; reflexivity.
    + right. discriminate.
  - exact Hrun.
Defined.

(** C5, as first stated, fails: a result without a buffer of constraint
    values keeps the count it records. *)
Lemma prima_free_result_keeps_count :
  ~ (forall (r r' : prima_result_t) (w w' : world),
        releasable (heap w) r ->
        @prima_free_result sample_h (Some r) w = Some (0, Some r', w') ->
        Result._m_nlcon r' = 0).
Proof.
  intros H.
  specialize (H (Result.mk NULL double_zero double_zero NULL 0 0 NullStr 3)
                (Result.mk NULL double_zero double_zero NULL 0 0 NullStr 3)
                sample_world sample_world).
  simpl in H. discriminate H.
  - repeat split. now left.
  - reflexivity.
Qed.

(** ** The dispatcher *)

(** A label of a [switch] runs a body filed under that label. *)
Lemma switch_label {A : Type} (v : Z) (cases : list (Z * A)) (d : A) :
  In v (map fst cases) ->
  exists body : A, In (v, body) cases /\ switch v cases d = body.
Proof.
  induction cases as [|[c b] cases IH]; simpl; [tauto|].
  intros Hin. destruct (Z.eqb_spec v c) as [->|Hne].
  - exists b. split; [now left|reflexivity].
  - destruct Hin as [Heq|Hin]; [congruence|].
    destruct (IH Hin) as (body & Hb & Hs). exists body. split; [now right|exact Hs].
Qed.

(** Two labels at different places of a list of distinct labels differ. *)
Lemma distinct_nth (l : list Z) (i j : nat) (x y : Z) :
  distinct l = true -> i <> j ->
  nth_error l i = Some x -> nth_error l j = Some y -> x <> y.
Proof.
  intros Hd Hij Hi Hj ->. apply distinct_NoDup in Hd.
  apply Hij. apply (proj1 (NoDup_nth_error l) Hd).
  - apply nth_error_Some. congruence.
  - congruence.
Qed.

Section Dispatcher.
Context {hdr : prima_h}.
Variable engine :
  engine_call -> engine_outs -> gmap addr block -> engine_outs * gmap addr block.

(** [PRIMA_INVALID_INPUT] is none of the statuses of [prima_init_result]. *)
Lemma invalid_input_apart :
  rc_distinct = true ->
  PRIMA_INVALID_INPUT <> PRIMA_MEMORY_ALLOCATION_FAILS
  /\ PRIMA_INVALID_INPUT <> PRIMA_NULL_PROBLEM
  /\ PRIMA_INVALID_INPUT <> PRIMA_NULL_X0
  /\ PRIMA_INVALID_INPUT <> PRIMA_NULL_RESULT.
Proof.
  intros Hd. unfold rc_distinct in Hd.
  repeat split.
  - exact (distinct_nth rc_labels 12 15 _ _ Hd ltac:(lia) eq_refl eq_refl).
  - exact (distinct_nth rc_labels 12 17 _ _ Hd ltac:(lia) eq_refl eq_refl).
  - exact (distinct_nth rc_labels 12 18 _ _ Hd ltac:(lia) eq_refl eq_refl).
  - exact (distinct_nth rc_labels 12 19 _ _ Hd ltac:(lia) eq_refl eq_refl).
Qed.

(** [prima_init_result] calls no engine, returns one of five statuses, and
    leaves a result whenever it was given one. *)
Lemma init_result_frame (result r' : option prima_result_t)
    (problem : option prima_problem_t) (w w' : world) (rc : Z) :
  prima_init_result result problem w = Some (rc, r', w') ->
  engine_log w' = engine_log w
  /\ In rc [0; PRIMA_NULL_RESULT; PRIMA_NULL_PROBLEM; PRIMA_NULL_X0;
            PRIMA_MEMORY_ALLOCATION_FAILS]
  /\ (rc <> PRIMA_NULL_RESULT -> exists r1 : prima_result_t, r' = Some r1).
Proof.
  unfold prima_init_result.
  destruct result as [r0|]; [|intros [= <- <- <-]; simpl; tauto].
  destruct problem as [p|]; [|intros [= <- <- <-]; simpl; eauto 10].
  destruct (is_null (Problem.x0 p)); [intros [= <- <- <-]; simpl; eauto 10|].
  intros H. apply bind_inv in H. destruct H as (x & w1 & Hmalloc & H).
  apply malloc_inv in Hmalloc.
  destruct Hmalloc as [(-> & Hh & Hl & _)|(s & _ & _ & -> & ->)].
  { simpl in H. injection H as <- <- <-. simpl. eauto 10. }
  change (is_null (Ptr (fresh (dom (heap w))))) with false in H. cbv iota in H.
  apply bind_inv in H. destruct H as (u & w2 & Hcpy & H).
  apply memcpy_inv in Hcpy.
  destruct Hcpy as (d & a0 & bd & b0 & _ & _ & _ & _ & _ & _ & _ & ->).
  destruct (0 <? Problem.m_nlcon p).
  - apply bind_inv in H. destruct H as (nl & w3 & Hcalloc & H).
    apply calloc_inv in Hcalloc.
    destruct Hcalloc as [(-> & Hh & Hl & _)|(s' & _ & _ & -> & ->)].
    + simpl in H. injection H as <- <- <-. simpl. rewrite Hl. simpl. eauto 10.
    + simpl in H. injection H as <- <- <-. simpl. eauto 10.
  - simpl in H. injection H as <- <- <-. simpl. eauto 10.
Qed.

(** A [case] of the dispatch calls its engine once and returns. *)
Lemma dispatch_run (c : engine_call) (has_cstrv : bool) (o : prima_options_t)
    (r : prima_result_t) (info : Z) (w : world) :
  exists (info' : Z) (r' : prima_result_t) (w' : world),
    dispatch engine c has_cstrv o r info w = Some (info', Some o, Some r', w')
    /\ engine_log w' = c :: engine_log w
    /\ Result.status r' = info'
    /\ Result.message r' = prima_get_rc_string info'.
Proof.
  unfold dispatch, bind, call_engine.
  destruct (engine c (outs_of r info) (heap w)) as [out h].
  simpl. eexists _, _, _. split; [reflexivity|]. simpl. auto.
Qed.

(** Past a successful check and a successful [prima_init_result],
    [prima_minimize] is at its [switch]. *)
Lemma minimize_at_switch (algorithm : Z) (problem : option prima_problem_t)
    (options o1 : option prima_options_t) (result r1 : option prima_result_t)
    (w w1 w2 : world) :
  failures_nonzero = true ->
  prima_check_problem problem options (use_constr_of algorithm) algorithm w
    = Some (0, o1, w1) ->
  prima_init_result result problem w1 = Some (0, r1, w2) ->
  engine_log w2 = engine_log w
  /\ (In algorithm algorithm_labels ->
      exists (c : engine_call) (info : Z) (o' : option prima_options_t)
             (r' : option prima_result_t) (w' : world),
        prima_minimize engine algorithm problem options result w
          = Some (info, o', r', w')
        /\ engine_algorithm c = algorithm
        /\ engine_log w' = c :: engine_log w2)
  /\ (~ In algorithm algorithm_labels ->
      prima_minimize engine algorithm problem options result w
        = Some (PRIMA_INVALID_INPUT, o1, r1, w2)).
Proof.
  intros Hf Hcheck Hinit.
  destruct (check_zero_inv _ _ _ _ _ _ _ Hf Hcheck)
    as (p & o & -> & -> & _ & _ & -> & ->).
  destruct (init_result_frame _ _ _ _ _ _ Hinit) as (Hlog & _ & Hsome).
  destruct Hsome as (r & ->).
  { intros E. symmetry in E. revert E.
    apply (failures_nonzero_spec Hf). simpl. tauto. }
  split; [exact Hlog|].
  unfold prima_minimize, bind.
  unfold use_constr_of in Hcheck. rewrite Hcheck. cbv beta iota.
  change (0 =? 0) with true. cbv beta iota.
  rewrite Hinit. cbv beta iota.
  change (0 =? 0) with true. cbv beta iota.
  split.
  - intros Hin.
    match goal with
    | |- context [switch algorithm ?cases ?d] =>
        destruct (switch_label algorithm cases d Hin) as (body & Hb & ->)
    end.
    simpl in Hb.
    destruct Hb as [Hb|[Hb|[Hb|[Hb|[Hb|[]]]]]]; injection Hb as Hlab <-.
    all: match goal with
         | |- context [dispatch engine ?c ?hc ?o ?r ?i ?w] =>
             destruct (dispatch_run c hc o r i w) as (i' & r' & w' & Hd & Hl & _);
             exists c, i', (Some o), (Some r'), w'
         end.
    all: split; [exact Hd|]. 
    all: split; [simpl; congruence|exact Hl].
  - intros Hn. rewrite switch_default; [reflexivity|exact Hn].
Qed.
End Dispatcher.

Section Minimize.
Context {hdr : prima_h}.
Variable engine :
  engine_call -> engine_outs -> gmap addr block -> engine_outs * gmap addr block.

(** [prima_check_problem] leaves the world as it is. *)
Lemma check_world (algorithm : Z) (problem : option prima_problem_t)
    (options o1 : option prima_options_t) (use_constr code : Z) (w w1 : world) :
  prima_check_problem problem options use_constr algorithm w
    = Some (code, o1, w1) ->
  w1 = w.
Proof.
  unfold prima_check_problem.
  destruct problem as [p|]; [|now intros [= _ _ <-]].
  destruct (neqb algorithm PRIMA_COBYLA && has_nonlinear p);
    [now intros [= _ _ <-]|].
  destruct (neqb algorithm PRIMA_COBYLA && neqb algorithm PRIMA_LINCOA
            && has_linear p); [now intros [= _ _ <-]|].
  destruct (neqb algorithm PRIMA_COBYLA && neqb algorithm PRIMA_LINCOA
            && neqb algorithm PRIMA_BOBYQA && has_bounds p);
    [now intros [= _ _ <-]|].
  destruct options as [o|]; [|now intros [= _ _ <-]].
  destruct (is_null (Problem.x0 p)); [now intros [= _ _ <-]|].
  destruct (neqb use_constr 0 && is_null (Problem.calcfc p)
            || (use_constr =? 0) && is_null (Problem.calfun p));
    [now intros [= _ _ <-]|].
  unfold bind, lift, ret, undefined.
  destruct (default_maxfun p o) as [o2|]; [|discriminate].
  destruct (default_npt p o2) as [o3|]; [|discriminate].
  now intros [= _ _ <-].
Qed.

(** The runs of [prima_minimize], by what the check and
    [prima_init_result] return. *)
Lemma minimize_cases (algorithm : Z)
    (problem : option prima_problem_t) (options : option prima_options_t)
    (result : option prima_result_t) (w : world) :
  failures_nonzero = true ->
  (forall (o1 : option prima_options_t) (w1 : world)
          (r1 : option prima_result_t) (w2 : world),
      prima_check_problem problem options (use_constr_of algorithm) algorithm w
        = Some (0, o1, w1) ->
      prima_init_result result problem w1 = Some (0, r1, w2) ->
      (In algorithm algorithm_labels ->
       exists (c : engine_call) (info : Z) (o' : option prima_options_t)
              (r' : option prima_result_t) (w' : world),
         prima_minimize engine algorithm problem options result w
           = Some (info, o', r', w')
         /\ engine_algorithm c = algorithm
         /\ engine_log w' = c :: engine_log w)
      /\ (~ In algorithm algorithm_labels ->
          prima_minimize engine algorithm problem options result w
            = Some (PRIMA_INVALID_INPUT, o1, r1, w2)
          /\ engine_log w2 = engine_log w))
  /\ (forall (code : Z) (o1 : option prima_options_t) (w1 : world),
        prima_check_problem problem options (use_constr_of algorithm) algorithm w
          = Some (code, o1, w1) ->
        code <> 0 ->
        prima_minimize engine algorithm problem options result w
          = Some (code, o1, result, w1)
        /\ engine_log w1 = engine_log w)
  /\ (forall (o1 : option prima_options_t) (w1 : world) (code : Z)
             (r1 : option prima_result_t) (w2 : world),
        prima_check_problem problem options (use_constr_of algorithm) algorithm w
          = Some (0, o1, w1) ->
        prima_init_result result problem w1 = Some (code, r1, w2) ->
        code <> 0 ->
        prima_minimize engine algorithm problem options result w
          = Some (code, o1, r1, w2)
        /\ engine_log w2 = engine_log w).
Proof.
  intros Hf. split; [|split].
  - intros o1 w1 r1 w2 Hcheck Hinit.
    destruct (minimize_at_switch engine algorithm problem options o1 result r1
                w w1 w2 Hf Hcheck Hinit) as (Hlog & Hin & Hout).
    split.
    + intros Hl. destruct (Hin Hl) as (c & info & o' & r' & w' & Hrun & Hc & Hw).
      exists c, info, o', r', w'. rewrite Hw, Hlog. auto.
    + intros Hl. split; [now apply Hout|exact Hlog].
  - intros code o1 w1 Hcheck Hne.
    split; [now apply minimize_check_fails|].
    now rewrite (check_world _ _ _ _ _ _ _ _ Hcheck).
  - intros o1 w1 code r1 w2 Hcheck Hinit Hne.
    pose proof (check_world _ _ _ _ _ _ _ _ Hcheck) as ->.
    destruct (init_result_frame _ _ _ _ _ _ Hinit) as (Hlog & _).
    split; [|exact Hlog].
    unfold prima_minimize, bind.
    unfold use_constr_of in Hcheck. rewrite Hcheck. cbv beta iota.
    change (0 =? 0) with true. cbv beta iota.
    rewrite Hinit. cbv beta iota.
    apply Z.eqb_neq in Hne. now rewrite Hne.
Qed.

(** C2 (amended): [prima_minimize] calls an engine exactly when the check
    and [prima_init_result] both succeed and the algorithm is one of the
    five: it then calls the engine of that algorithm, once. With both
    successful and an algorithm outside the enumeration it returns
    [PRIMA_INVALID_INPUT] and calls no engine. When the check or
    [prima_init_result] fails it returns their status and calls no engine. *)
Theorem prima_minimize_engine_calls (algorithm : Z)
    (problem : option prima_problem_t) (options : option prima_options_t)
    (result : option prima_result_t) (w : world) :
  failures_nonzero = true ->
  (forall (o1 : option prima_options_t) (w1 : world)
          (r1 : option prima_result_t) (w2 : world),
      prima_check_problem problem options (use_constr_of algorithm) algorithm w
        = Some (0, o1, w1) ->
      prima_init_result result problem w1 = Some (0, r1, w2) ->
      (In algorithm algorithm_labels ->
       exists (c : engine_call) (info : Z) (o' : option prima_options_t)
              (r' : option prima_result_t) (w' : world),
         prima_minimize engine algorithm problem options result w
           = Some (info, o', r', w')
         /\ engine_algorithm c = algorithm
         /\ engine_log w' = c :: engine_log w)
      /\ (~ In algorithm algorithm_labels ->
          prima_minimize engine algorithm problem options result w
            = Some (PRIMA_INVALID_INPUT, o1, r1, w2)
          /\ engine_log w2 = engine_log w))
  /\ (forall (code : Z) (o1 : option prima_options_t) (w1 : world),
        prima_check_problem problem options (use_constr_of algorithm) algorithm w
          = Some (code, o1, w1) ->
        code <> 0 ->
        prima_minimize engine algorithm problem options result w
          = Some (code, o1, result, w1)
        /\ engine_log w1 = engine_log w)
  /\ (forall (o1 : option prima_options_t) (w1 : world) (code : Z)
             (r1 : option prima_result_t) (w2 : world),
        prima_check_problem problem options (use_constr_of algorithm) algorithm w
          = Some (0, o1, w1) ->
        prima_init_result result problem w1 = Some (code, r1, w2) ->
        code <> 0 ->
        prima_minimize engine algorithm problem options result w
          = Some (code, o1, r1, w2)
        /\ engine_log w2 = engine_log w).
Proof. exact (minimize_cases algorithm problem options result w). Qed.
End Minimize.

Lemma prima_minimize_engine_calls_witness :
  exists (c : engine_call) (info : Z) (o' : option prima_options_t)
         (r' : option prima_result_t) (w' : world),
    @prima_minimize sample_h sample_engine 2 (Some sample_problem)
       (Some sample_options) (Some Result.zero) sample_world
      = Some (info, o', r', w')
    /\ @engine_algorithm sample_h c = 2
    /\ engine_log w' = [c].
Proof.
  destruct (@prima_minimize_engine_calls sample_h sample_engine 2
              (Some sample_problem) (Some sample_options) (Some Result.zero)
              sample_world eq_refl) as (Hvalid & _).
  eapply Hvalid.
  - vm_compute. reflexivity.
  - vm_compute. reflexivity.
  - vm_compute. tauto.
Defined.

(** C2, as first stated, fails: NEWUOA is in the enumeration, and on a
    problem with bounds [prima_minimize] returns the mismatch status
    without calling any engine. *)
Lemma prima_minimize_without_engine_call :
  ~ (forall (algorithm : Z) (problem : option prima_problem_t)
            (options o' : option prima_options_t)
            (result r' : option prima_result_t) (w w' : world) (info : Z),
        In algorithm (@algorithm_labels sample_h) ->
        @prima_minimize sample_h sample_engine algorithm problem options
           result w = Some (info, o', r', w') ->
        exists c : engine_call, engine_log w' = c :: engine_log w).
Proof.
  intros H.
  destruct (H 1 (Some sample_problem) (Some sample_options)
              (Some sample_options) (Some Result.zero) (Some Result.zero)
              sample_world sample_world 117) as (c & Hc).
  - vm_compute. tauto.
  - vm_compute. reflexivity.
  - discriminate Hc.
Qed.

Section InvalidAlgorithm.
Context {hdr : prima_h}.
Variable engine :
  engine_call -> engine_outs -> gmap addr block -> engine_outs * gmap addr block.

(** An algorithm outside the enumeration has no capability: a problem that
    passes the capability conditions for it has no nonlinear constraint. *)
Lemma outside_no_nonlinear (algorithm : Z) (p : prima_problem_t) :
  ~ In algorithm algorithm_labels ->
  capability_checks_pass algorithm p = true ->
  Problem.m_nlcon p <= 0.
Proof.
  intros Hn Hc. unfold capability_checks_pass in Hc.
  apply andb_prop in Hc. destruct Hc as [Hc _].
  apply andb_prop in Hc. destruct Hc as [Hc _].
  apply negb_true_iff in Hc.
  assert (Hne : neqb algorithm PRIMA_COBYLA = true).
  { unfold neqb. apply negb_true_iff, Z.eqb_neq. intros ->.
    apply Hn. simpl. tauto. }
  rewrite Hne in Hc. simpl in Hc. unfold has_nonlinear in Hc.
  apply orb_false_elim in Hc. destruct Hc as [_ Hc].
  apply Z.ltb_ge in Hc. exact Hc.
Qed.

(** C9: let the algorithm be outside the enumeration and the check pass.
    Whenever [prima_minimize] returns [PRIMA_INVALID_INPUT], the solution
    buffer has been allocated: [result.x] is a fresh block of the allocator
    holding the first [n] cells of [x0], the one block added to the heap;
    every other field of the result is zero, [status] and [message] (null)
    included; no engine was called; and [prima_free_result] then releases
    the block. It does return [PRIMA_INVALID_INPUT] when it is given a
    result, [x0] is a live array of at least [n] cells and the allocator
    grants the request. *)
Theorem prima_minimize_invalid_algorithm (algorithm : Z) (p : prima_problem_t)
    (o : prima_options_t) (result : option prima_result_t)
    (o1 : option prima_options_t) (w w1 : world) :
  failures_nonzero = true ->
  rc_distinct = true ->
  problem_ints p = true ->
  ~ In algorithm algorithm_labels ->
  prima_check_problem (Some p) (Some o) (use_constr_of algorithm) algorithm w
    = Some (0, o1, w1) ->
  (forall (info : Z) (o' : option prima_options_t)
          (r' : option prima_result_t) (w' : world),
      prima_minimize engine algorithm (Some p) (Some o) result w
        = Some (info, o', r', w') ->
      info = PRIMA_INVALID_INPUT ->
      exists (a a0 : addr) (b0 : block),
        Problem.x0 p = Ptr a0 /\ heap w !! a0 = Some b0 /\ heap w !! a = None
        /\ r' = Some (Result.mk (Ptr a) double_zero double_zero NULL 0 0
                        NullStr 0)
        /\ heap w' = <[a := x_copy p b0]> (heap w)
        /\ engine_log w' = engine_log w
        /\ o' = o1
        /\ exists w'' : world,
             prima_free_result r' w' = Some (0, Some Result.zero, w'')
             /\ heap w'' = heap w)
  /\ (forall (r0 : prima_result_t) (a0 : addr) (b0 : block) (s : list bool),
        result = Some r0 ->
        Problem.x0 p = Ptr a0 -> heap w !! a0 = Some b0 ->
        0 <= Problem.n p <= Z.of_nat (length (blk_cells b0)) ->
        alloc_script w = true :: s ->
        exists (o' : option prima_options_t) (r' : option prima_result_t)
               (w' : world),
          prima_minimize engine algorithm (Some p) (Some o) result w
            = Some (PRIMA_INVALID_INPUT, o', r', w')).
Proof.
  intros Hf Hd Hints Hout Hcheck.
  pose proof (failures_nonzero_spec Hf) as Hnz.
  destruct (invalid_input_apart Hd) as (Hi1 & Hi2 & Hi3 & Hi4).
  assert (Hi0 : PRIMA_INVALID_INPUT <> 0) by (apply Hnz; simpl; tauto).
  assert (Hmem : PRIMA_MEMORY_ALLOCATION_FAILS <> 0)
    by (apply Hnz; simpl; tauto).
  destruct (check_zero_inv _ _ _ _ _ _ _ Hf Hcheck)
    as (p' & o' & [= <-] & [= <-] & Hcap & Hsetup & -> & ->).
  pose proof (outside_no_nonlinear algorithm p Hout Hcap) as Hnl.
  assert (Hnn : is_null (Problem.x0 p) = false).
  { unfold setup_ok in Hsetup.
    apply andb_prop in Hsetup. destruct Hsetup as [Hsetup _].
    apply andb_prop in Hsetup. destruct Hsetup as [Hsetup _].
    apply andb_prop in Hsetup. destruct Hsetup as [Hsetup _].
    now apply negb_true_iff in Hsetup. }
  destruct (minimize_cases engine algorithm (Some p) (Some o)
              result w Hf) as (Hok & _ & Hfail).
  split.
  - intros info o' r' w' Hrun ->.
    destruct (prima_init_result result (Some p) w) as [[[rc r1] w2]|] eqn:Hinit.
    2:{ exfalso. revert Hrun. unfold prima_minimize, bind.
        unfold use_constr_of in Hcheck. rewrite Hcheck. cbv beta iota.
        change (0 =? 0) with true. cbv beta iota. rewrite Hinit.
        discriminate. }
    destruct (Z.eq_dec rc 0) as [->|Hrc].
    + destruct (Hok _ _ _ _ Hcheck Hinit) as (_ & Hinv).
      destruct (Hinv Hout) as (Hret & Hlog).
      rewrite Hret in Hrun. injection Hrun as <- <- <-.
      destruct result as [r0|].
      2:{ exfalso. simpl in Hinit. injection Hinit as E _ _.
          revert E. apply Hnz. simpl. tauto. }
      destruct (init_result_inv r0 p w w2 0 r1 Hints Hnn Hinit)
        as (r2 & -> & Houtc & _).
      inversion Houtc as [w' Href Hh E1 E2
                   |a a0 b0 s w' Hpos Hs Hx0 Hb0 Hlen Ha Hnl' Hh Hs'
                   |a a0 b0 s w' Hpos Hs Hx0 Hb0 Hlen Ha Hnl' Href Hh
                   |a b a0 b0 s w' Hpos Hs Hx0 Hb0 Hlen Ha Hb Hab Hnl' Hh Hs'];
        subst; try congruence; try lia.
      exists a, a0, b0. repeat split; try assumption.
      rewrite free_result_run.
      * eexists. split; [reflexivity|]. simpl. rewrite Hh.
        now apply delete_insert_id.
      * unfold releasable, owned. simpl. rewrite Hh, lookup_insert_eq.
        split; [eexists; split; reflexivity|]. split; [exact I|].
        right. discriminate.
    + destruct (Hfail _ _ _ _ _ Hcheck Hinit Hrc) as (Hret & _).
      rewrite Hret in Hrun. injection Hrun as -> _ _ _.
      destruct (init_result_frame _ _ _ _ _ _ Hinit) as (_ & Hin & _).
      simpl in Hin. intuition congruence.
  - intros r0 a0 b0 s -> Hx0 Hb0 [Hpos Hlen] Hs.
    destruct (init_result_defined r0 p w a0 b0 Hints Hx0 Hb0 Hlen)
      as (rc & r' & w' & Hinit).
    destruct (init_result_inv r0 p w w' rc r' Hints Hnn Hinit)
      as (r2 & -> & Houtc & _).
    assert (rc = 0) as ->.
    { inversion Houtc as [w'' Href Hh E1 E2| | |]; subst; try reflexivity;
        try lia.
      destruct Href as [Href|Href]; [lia|]. rewrite Hs in Href.
      now contradiction Href. }
    destruct (Hok _ _ _ _ Hcheck Hinit) as (_ & Hinv).
    destruct (Hinv Hout) as (Hret & _). eauto.
Qed.
End InvalidAlgorithm.

Lemma prima_minimize_invalid_algorithm_witness :
  exists (o' : option prima_options_t) (r' : option prima_result_t)
         (w' : world),
    @prima_minimize sample_h sample_engine 7 (Some sample_unconstrained)
       (Some sample_options) (Some Result.zero) sample_world
      = Some (100, o', r', w').
Proof.
  destruct (@prima_minimize_invalid_algorithm sample_h sample_engine 7
              sample_unconstrained sample_options (Some Result.zero)
              (Some (Options.mk NAN NAN neg_INFINITY 1000 5 0 NULL NULL))
              sample_world sample_world eq_refl eq_refl eq_refl)
    as (_ & Hruns).
  - vm_compute. intuition discriminate.
  - reflexivity.
  - apply (Hruns Result.zero 1%positive
             (caller_array [double_zero; double_zero]) [true]);
      try reflexivity.
    simpl. lia.
Defined.

(** * Further properties *)

(** ** The heap a fresh result leaves *)

Section ResultShape.
Context {hdr : prima_h}.

(** Whatever [prima_init_result] returns on a result to fill, the result it
    leaves has zero scalars, and the heap is the heap it found with, at
    most, the one or two fresh blocks the result points to. *)
Lemma init_result_heap (r0 : prima_result_t)
    (problem : option prima_problem_t) (w w' : world) (rc : Z)
    (r' : option prima_result_t) :
  prima_init_result (Some r0) problem w = Some (rc, r', w') ->
  exists r1 : prima_result_t,
    r' = Some r1
    /\ r1 = Result.set_nlconstr (Result.nlconstr r1)
              (Result.set_x (Result.x r1) Result.zero)
    /\ engine_log w' = engine_log w
    /\ (Result.x r1 <> NULL ->
        exists (p : prima_problem_t) (a0 : addr) (b0 : block),
          problem = Some p /\ Problem.x0 p = Ptr a0 /\ heap w !! a0 = Some b0)
    /\ ((Result.x r1 = NULL /\ Result.nlconstr r1 = NULL /\ heap w' = heap w
         /\ In rc [PRIMA_NULL_PROBLEM; PRIMA_NULL_X0;
                   PRIMA_MEMORY_ALLOCATION_FAILS])
        \/ (exists (a : addr) (bx : block),
              Result.x r1 = Ptr a /\ Result.nlconstr r1 = NULL
              /\ heap w !! a = None /\ blk_dyn bx = true
              /\ heap w' = <[a := bx]> (heap w))
        \/ (exists (a b : addr) (bx bn : block),
              Result.x r1 = Ptr a /\ Result.nlconstr r1 = Ptr b /\ a <> b
              /\ heap w !! a = None /\ heap w !! b = None
              /\ blk_dyn bx = true /\ blk_dyn bn = true
              /\ heap w' = <[b := bn]> (<[a := bx]> (heap w)))).
Proof.
  unfold prima_init_result.
  destruct problem as [p|].
  2:{ intros [= <- <- <-]. eexists. repeat split; try easy.
      left. simpl. tauto. }
  destruct (is_null (Problem.x0 p)) eqn:Hnull.
  { intros [= <- <- <-]. eexists. repeat split; try easy.
    left. simpl. tauto. }
  intros H. apply bind_inv in H. destruct H as (x & w1 & Hmalloc & H).
  apply malloc_inv in Hmalloc.
  destruct Hmalloc as [(-> & Hh & Hl & _)|(s & _ & _ & -> & ->)].
  { simpl in H. injection H as <- <- <-. eexists. repeat split; try easy.
    left. simpl. tauto. }
  set (a := fresh (dom (heap w))) in *.
  pose proof (fresh_heap (heap w)) as Ha. fold a in Ha.
  change (is_null (Ptr a)) with false in H. cbv iota in H.
  apply bind_inv in H. destruct H as (u & w2 & Hcpy & H).
  apply memcpy_inv in Hcpy.
  destruct Hcpy as (d & a0 & bd & b0 & Hd & Hx0 & Hne & Hbd & Hb0 & _ & _ & ->).
  injection Hd as <-. simpl in Hbd, Hb0. rewrite lookup_insert_eq in Hbd.
  rewrite lookup_insert_ne in Hb0 by exact Hne.
  injection Hbd as <-. simpl in H. rewrite insert_insert_eq in H.
  match type of H with
  | context [<[a := ?b]> (heap w)] => set (bx := b) in *
  end.
  assert (Hsrc : exists (p' : prima_problem_t) (a0' : addr) (b0' : block),
             Some p = Some p' /\ Problem.x0 p' = Ptr a0'
             /\ heap w !! a0' = Some b0') by eauto 10.
  destruct (0 <? Problem.m_nlcon p).
  - apply bind_inv in H. destruct H as (nl & w3 & Hcalloc & H).
    apply calloc_inv in Hcalloc.
    destruct Hcalloc as [(-> & Hh & Hl & _)|(s' & _ & _ & -> & ->)].
    + simpl in H. injection H as <- <- <-.
      eexists. split; [reflexivity|]. split; [reflexivity|].
      split; [exact Hl|]. split; [intros _; exact Hsrc|].
      right. left. exists a, bx. auto 10.
    + simpl in H. injection H as <- <- <-.
      eexists. split; [reflexivity|]. split; [reflexivity|].
      split; [reflexivity|]. split; [intros _; exact Hsrc|]. right. right.
      set (h1 := <[a := bx]> (heap w)).
      pose proof (fresh_heap h1) as Hb. set (b := fresh (dom h1)) in *.
      assert (Hab : a <> b).
      { intros E. rewrite <- E in Hb. unfold h1 in Hb.
        rewrite lookup_insert_eq in Hb. discriminate. }
      eexists a, b, bx, _. repeat split; try reflexivity; auto.
      unfold h1 in Hb. now rewrite lookup_insert_ne in Hb.
  - simpl in H. injection H as <- <- <-.
    eexists. split; [reflexivity|]. split; [reflexivity|].
    split; [reflexivity|]. split; [intros _; exact Hsrc|].
    right. left. exists a, bx. auto 10.
Qed.


(** Whatever [prima_init_result] returns, the result it leaves can be
    released, and the release gives the heap back. *)
Lemma init_result_release (r0 : prima_result_t)
    (problem : option prima_problem_t) (w : world) (rc : Z)
    (r' : option prima_result_t) (w' : world) :
  prima_init_result (Some r0) problem w = Some (rc, r', w') ->
  exists w'' : world,
    prima_free_result r' w' = Some (0, Some Result.zero, w'')
    /\ heap w'' = heap w /\ engine_log w'' = engine_log w.
Proof.
  intros Hrun.
  destruct (init_result_heap r0 problem w w' rc r' Hrun)
    as (r1 & -> & Hr1 & Hlog & _
        & [(Hx & Hn & Hh & _)|[(a & bx & Hx & Hn & Ha & Hdx & Hh)
        |(a & b & bx & bn & Hx & Hn & Hab & Ha & Hb & Hdx & Hdn & Hh)]]).
  + rewrite free_result_released by assumption.
    exists w'. rewrite Hr1, Hx, Hn. auto.
  + rewrite free_result_run.
    * eexists. rewrite Hr1, Hx, Hn. split; [reflexivity|]. simpl.
      split; [|exact Hlog]. rewrite Hh. now apply delete_insert_id.
    * unfold releasable, owned. rewrite Hx, Hn, Hh, lookup_insert_eq.
      split; [eauto|]. split; [exact I|]. right. discriminate.
  + rewrite free_result_run.
    * eexists. rewrite Hr1, Hx, Hn. split; [reflexivity|]. simpl.
      split; [|exact Hlog]. rewrite Hh.
      rewrite delete_insert_id
        by (rewrite lookup_insert_ne by congruence; exact Hb).
      now apply delete_insert_id.
    * unfold releasable, owned. rewrite Hx, Hn, Hh.
      rewrite lookup_insert_eq, lookup_insert_ne, lookup_insert_eq
        by congruence.
      split; [eauto|]. split; [eauto|]. right. congruence.
Qed.

(** X1: [prima_init_result] zeroes the result before it looks at the
    problem: with a null problem it returns [PRIMA_NULL_PROBLEM], with a
    null [x0] it returns [PRIMA_NULL_X0], in both cases with the result all
    zero and nothing allocated. And whatever it returns, on any problem,
    [prima_free_result] on the result it leaves returns 0, gives the heap
    back as it was and leaves the result all zero. *)
Theorem prima_init_result_always_releasable (r0 : prima_result_t)
    (problem : option prima_problem_t) (w : world) :
  (problem = None ->
   prima_init_result (Some r0) problem w
     = Some (PRIMA_NULL_PROBLEM, Some Result.zero, w))
  /\ (forall p : prima_problem_t,
        problem = Some p -> Problem.x0 p = NULL ->
        prima_init_result (Some r0) problem w
          = Some (PRIMA_NULL_X0, Some Result.zero, w))
  /\ (forall (rc : Z) (r' : option prima_result_t) (w' : world),
        prima_init_result (Some r0) problem w = Some (rc, r', w') ->
        exists w'' : world,
          prima_free_result r' w' = Some (0, Some Result.zero, w'')
          /\ heap w'' = heap w /\ engine_log w'' = engine_log w).
Proof.
  split; [|split].
  - intros ->. reflexivity.
  - intros p -> Hx0. unfold prima_init_result. rewrite Hx0. reflexivity.
  - intros rc r' w' Hrun. exact (init_result_release r0 problem w rc r' w' Hrun).
Qed.
End ResultShape.

(** ** Initialisers and validation together *)

Section InitCheck.
Context {hdr : prima_h}.

(** X2: the two initialisers followed by the check. Let the problem be the
    one [prima_init_problem] leaves for the dimension [n], with [x0] and
    the evaluator of the algorithm set by the caller, and the options those
    [prima_init_options] leaves. If [500 * n] is an [int], then for each of
    the five algorithms, under the constrained flag [prima_minimize]
    computes, [prima_check_problem] returns 0 and leaves
    [maxfun = 500 * n] and [npt = 2 * n + 1], the other options as
    initialised. The dimension itself is not checked: this holds for zero
    and negative [n] as well. *)
Theorem prima_init_then_check (a : algorithm) (n : Z) (x0 evaluator : ptr)
    (p0 : prima_problem_t) (o0 : prima_options_t) (w : world) :
  algorithms_distinct = true ->
  nonnull x0 = true -> nonnull evaluator = true ->
  in_int (500 * n) = true ->
  exists (p : prima_problem_t) (o : prima_options_t),
    prima_init_problem (Some p0) n w = Some (0, Some p, w)
    /\ prima_init_options (Some o0) w = Some (0, Some o, w)
    /\ prima_check_problem
         (Some (Caller.set_evaluator (use_constr_of (algorithm_id a))
                  evaluator (Caller.set_x0 x0 p)))
         (Some o) (use_constr_of (algorithm_id a)) (algorithm_id a) w
       = Some (0,
               Some (Options.mk NAN NAN neg_INFINITY (500 * n) (2 * n + 1)
                       PRIMA_MSG_NONE NULL NULL),
               w).
Proof.
  intros Hd Hx0 Hev Hn.
  eexists _, _. split; [reflexivity|]. split; [reflexivity|].
  apply algorithms_distinct_spec in Hd.
  destruct Hd as (H1 & H2 & H3 & H4 & H5 & H6 & H7 & H8 & H9 & H10).
  apply in_int_range in Hn. unfold INT_MIN, INT_MAX in Hn.
  assert (Hn1 : in_int (MAXFUN_DIM_DFT * n) = true)
    by (apply in_int_range; unfold INT_MIN, INT_MAX, MAXFUN_DIM_DFT; lia).
  assert (Hn2 : in_int (2 * n) = true)
    by (apply in_int_range; unfold INT_MIN, INT_MAX; lia).
  assert (Hn3 : in_int (2 * n + 1) = true)
    by (apply in_int_range; unfold INT_MIN, INT_MAX; lia).
  unfold nonnull in Hx0, Hev. apply negb_true_iff in Hx0, Hev.
  unfold prima_check_problem, use_constr_of, Caller.set_evaluator, neqb,
    has_nonlinear, has_linear, has_bounds, nonnull.
  destruct a; unfold algorithm_id;
    repeat match goal with
      | |- context [?x =? ?x] => rewrite (Z.eqb_refl x)
      | H : ?x <> ?y |- context [?x =? ?y] => rewrite (proj2 (Z.eqb_neq x y) H)
      | H : ?y <> ?x |- context [?x =? ?y] =>
          rewrite (proj2 (Z.eqb_neq x y) (not_eq_sym H))
      end; simpl; rewrite ?Hx0, ?Hev; simpl.
  all: unfold bind, lift, default_maxfun, default_npt, int_mul, int_add; simpl.
  all: rewrite Hn1; simpl; rewrite Hn2; simpl; rewrite Hn3; reflexivity.
Qed.

(** X3: validation is idempotent. A check that returned 0 has settled the
    options: run again on the options it left, with the same problem, flag
    and algorithm, it returns 0 again and changes nothing. *)
Theorem prima_check_problem_idempotent (algorithm : Z)
    (problem : option prima_problem_t) (options o1 : option prima_options_t)
    (use_constr : Z) (w w1 : world) :
  failures_nonzero = true ->
  prima_check_problem problem options use_constr algorithm w
    = Some (0, o1, w1) ->
  prima_check_problem problem o1 use_constr algorithm w1 = Some (0, o1, w1).
Proof.
  intros Hf H.
  destruct (check_zero_inv _ _ _ _ _ _ _ Hf H)
    as (p & o & -> & -> & Hc & Hs & -> & ->).
  assert (Hfix : with_defaults p (with_defaults p o) = with_defaults p o).
  { unfold with_defaults. simpl.
    destruct (Z.eqb_spec (Options.maxfun o) 0) as [Hm|Hm];
      destruct (Z.eqb_spec (Options.npt o) 0) as [Hp|Hp].
    - destruct (Z.eqb_spec (500 * Problem.n p) 0) as [E|E];
        destruct (Z.eqb_spec (2 * Problem.n p + 1) 0); try lia; reflexivity.
    - destruct (Z.eqb_spec (500 * Problem.n p) 0) as [E|E];
        destruct (Z.eqb_spec (Options.npt o) 0); try lia; reflexivity.
    - destruct (Z.eqb_spec (Options.maxfun o) 0);
        destruct (Z.eqb_spec (2 * Problem.n p + 1) 0); try lia; reflexivity.
    - destruct (Z.eqb_spec (Options.maxfun o) 0);
        destruct (Z.eqb_spec (Options.npt o) 0); try lia; reflexivity. }
  rewrite <- Hfix at 2. apply check_accepts; [exact Hc|].
  unfold setup_ok in Hs.
  apply andb_prop in Hs. destruct Hs as [Hs Hnpt].
  apply andb_prop in Hs. destruct Hs as [Hs Hmax].
  unfold setup_ok. rewrite Hs. unfold with_defaults. simpl.
  apply andb_true_intro. split.
  - destruct (Z.eqb_spec (Options.maxfun o) 0) as [Hm|Hm].
    + simpl in Hmax.
      destruct (Z.eqb_spec (500 * Problem.n p) 0) as [E|E]; [|reflexivity].
      exact Hmax.
    + destruct (Z.eqb_spec (Options.maxfun o) 0); [lia|reflexivity].
  - destruct (Z.eqb_spec (Options.npt o) 0) as [Hp|Hp].
    + destruct (Z.eqb_spec (2 * Problem.n p + 1) 0); [lia|reflexivity].
    + destruct (Z.eqb_spec (Options.npt o) 0); [lia|reflexivity].
Qed.

(** X4: derived defaults are kept. Once a check has returned 0 for a
    problem of nonzero dimension, [maxfun] and [npt] are no longer zero,
    and any later check that returns 0, for whatever problem, flag and
    algorithm, leaves the options exactly as the first check left them:
    the defaults are not derived again from the new dimension. *)
Theorem prima_check_problem_keeps_defaults (alg1 alg2 : Z)
    (p1 : prima_problem_t) (problem2 : option prima_problem_t)
    (options o1 o2 : option prima_options_t) (uc1 uc2 : Z) (w w1 w2 : world) :
  failures_nonzero = true ->
  Problem.n p1 <> 0 ->
  prima_check_problem (Some p1) options uc1 alg1 w = Some (0, o1, w1) ->
  prima_check_problem problem2 o1 uc2 alg2 w1 = Some (0, o2, w2) ->
  o2 = o1
  /\ exists o : prima_options_t,
       o1 = Some o /\ Options.maxfun o <> 0 /\ Options.npt o <> 0.
Proof.
  intros Hf Hn H1 H2.
  destruct (check_zero_inv _ _ _ _ _ _ _ Hf H1)
    as (p & o & [= <-] & -> & _ & _ & -> & ->).
  destruct (check_zero_inv _ _ _ _ _ _ _ Hf H2)
    as (p2 & o' & -> & [= <-] & _ & _ & -> & ->).
  assert (Hm : Options.maxfun (with_defaults p1 o) <> 0).
  { unfold with_defaults. simpl.
    destruct (Z.eqb_spec (Options.maxfun o) 0); lia. }
  assert (Hp : Options.npt (with_defaults p1 o) <> 0).
  { unfold with_defaults. simpl.
    destruct (Z.eqb_spec (Options.npt o) 0); lia. }
  split; [|eauto].
  f_equal. unfold with_defaults at 1.
  apply Z.eqb_neq in Hm, Hp. rewrite Hm, Hp.
  now destruct (with_defaults p1 o).
Qed.
End InitCheck.

Lemma prima_init_then_check_witness :
  @prima_check_problem sample_h
     (Some (Caller.set_calfun (Ptr 10%positive)
              (Caller.set_x0 (Ptr 1%positive)
                 (Problem.mk (-3) NULL NULL NULL NULL NULL 0 NULL NULL 0 NULL
                    NULL 0 NAN NULL))))
     (Some sample_options) 0 1 sample_world
  = Some (0, Some (Options.mk NAN NAN neg_INFINITY (-1500) (-5) 0 NULL NULL),
          sample_world).
Proof.
  destruct (@prima_init_then_check sample_h NEWUOA (-3) (Ptr 1%positive)
              (Ptr 10%positive) sample_problem sample_options sample_world
              eq_refl eq_refl eq_refl eq_refl) as (p & o & Hp & Ho & Hc).
  injection Hp as <-. injection Ho as <-. exact Hc.
Defined.

Lemma prima_check_problem_idempotent_witness :
  @prima_check_problem sample_h (Some sample_problem)
     (Some (Options.mk NAN NAN neg_INFINITY 1000 5 0 NULL NULL)) 0 2
     sample_world
  = Some (0, Some (Options.mk NAN NAN neg_INFINITY 1000 5 0 NULL NULL),
          sample_world).
Proof.
  apply (@prima_check_problem_idempotent sample_h 2 (Some sample_problem)
           (Some sample_options) _ 0 sample_world sample_world eq_refl).
  reflexivity.
Defined.

(** The options derived for the sample problem (dimension 2) stay as they
    are when a problem of dimension 10 is checked with them. *)
Lemma prima_check_problem_keeps_defaults_witness :
  Some (Options.mk NAN NAN neg_INFINITY 1000 5 0 NULL NULL)
  = Some (Options.mk NAN NAN neg_INFINITY 1000 5 0 NULL NULL)
  /\ exists o : prima_options_t,
       Some (Options.mk NAN NAN neg_INFINITY 1000 5 0 NULL NULL) = Some o
       /\ Options.maxfun o <> 0 /\ Options.npt o <> 0.
Proof.
  apply (@prima_check_problem_keeps_defaults sample_h 2 1 sample_problem
           (Some (Caller.set_calfun (Ptr 10%positive)
                    (Caller.set_x0 (Ptr 1%positive)
                       (Problem.mk 10 NULL NULL NULL NULL NULL 0 NULL NULL 0
                          NULL NULL 0 NAN NULL))))
           (Some sample_options) _ _ 0 0 sample_world sample_world
           sample_world eq_refl).
  - discriminate.
  - reflexivity.
  - reflexivity.
Defined.

(** ** The status translator, read backwards *)


Section TranslatorBack.
Context {hdr : prima_h}.



End TranslatorBack.


(** ** What a run of [prima_minimize] leaves *)

Section Runs.
Context {hdr : prima_h}.
Variable engine :
  engine_call -> engine_outs -> gmap addr block -> engine_outs * gmap addr block.

(** A [case] of the dispatch, computed. *)
Lemma dispatch_eq (c : engine_call) (has_cstrv : bool) (o : prima_options_t)
    (r : prima_result_t) (info : Z) (w : world) :
  dispatch engine c has_cstrv o r info w
  = let out := fst (engine c (outs_of r info) (heap w)) in
    Some (e_info out, Some o,
          Some (Result.set_message (prima_get_rc_string (e_info out))
                  (Result.set_status (e_info out) (store_outs has_cstrv out r))),
          with_log (c :: engine_log w)
            (with_heap (snd (engine c (outs_of r info) (heap w))) w)).
Proof.
  unfold dispatch, bind, call_engine.
  destruct (engine c (outs_of r info) (heap w)) as [out h]. reflexivity.
Qed.

(** The call [prima_minimize] makes for an algorithm of the enumeration,
    once the check and [prima_init_result] have succeeded. *)
Lemma minimize_dispatch (algorithm : Z) (p : prima_problem_t)
    (options : option prima_options_t) (o : prima_options_t)
    (result : option prima_result_t) (r : prima_result_t) (w w1 w2 : world) :
  algorithms_distinct = true ->
  prima_check_problem (Some p) options (use_constr_of algorithm) algorithm w
    = Some (0, Some o, w1) ->
  prima_init_result result (Some p) w1 = Some (0, Some r, w2) ->
  In algorithm algorithm_labels ->
  exists (c : engine_call) (has_cstrv : bool),
    prima_minimize engine algorithm (Some p) options result w
      = dispatch engine c has_cstrv o r 0 w2
    /\ engine_algorithm c = algorithm
    /\ call_n c = Problem.n p
    /\ call_x c = Result.x r
    /\ call_maxfun c = Options.maxfun o
    /\ call_evaluator c = required_evaluator (use_constr_of algorithm) p
    /\ (has_cstrv = true <->
        algorithm = PRIMA_COBYLA \/ algorithm = PRIMA_LINCOA).
Proof.
  intros Hd Hcheck Hinit Hin.
  apply algorithms_distinct_spec in Hd.
  destruct Hd as (H1 & H2 & H3 & H4 & H5 & H6 & H7 & H8 & H9 & H10).
  unfold prima_minimize, bind.
  unfold use_constr_of in Hcheck. rewrite Hcheck. cbv beta iota.
  change (0 =? 0) with true. cbv beta iota.
  rewrite Hinit. cbv beta iota.
  change (0 =? 0) with true. cbv beta iota.
  match goal with
  | |- context [switch algorithm ?cases ?d] =>
      destruct (switch_label algorithm cases d Hin) as (body & Hb & ->)
  end.
  simpl in Hb.
  destruct Hb as [Hb|[Hb|[Hb|[Hb|[Hb|[]]]]]]; injection Hb as Hlab <-.
  all: eexists _, _; split; [reflexivity|].
  all: subst algorithm; unfold required_evaluator, use_constr_of; simpl.
  all: repeat match goal with
         | |- context [?x =? ?x] => rewrite (Z.eqb_refl x)
         | H : ?x <> ?y |- context [?x =? ?y] =>
             rewrite (proj2 (Z.eqb_neq x y) H)
         | H : ?y <> ?x |- context [?x =? ?y] =>
             rewrite (proj2 (Z.eqb_neq x y) (not_eq_sym H))
         end; simpl.
  all: repeat split; try reflexivity; try discriminate; auto.
  all: intros [E|E]; congruence.
Qed.

(** Every run of [prima_minimize] that returns is of one of four kinds:
    the check fails; it passes and [prima_init_result] fails; both succeed
    and the algorithm is not in the enumeration; both succeed and the engine
    of the algorithm is called. *)
Lemma minimize_inv (algorithm : Z) (problem : option prima_problem_t)
    (options o' : option prima_options_t) (result r' : option prima_result_t)
    (w w' : world) (info : Z) :
  algorithms_distinct = true ->
  failures_nonzero = true ->
  prima_minimize engine algorithm problem options result w
    = Some (info, o', r', w') ->
  exists (code : Z) (o1 : option prima_options_t),
    prima_check_problem problem options (use_constr_of algorithm) algorithm w
      = Some (code, o1, w)
    /\ o' = o1
    /\ ((code <> 0 /\ info = code /\ r' = result /\ w' = w)
        \/ (code = 0
            /\ exists (rc : Z) (r1 : option prima_result_t) (w2 : world),
                 prima_init_result result problem w = Some (rc, r1, w2)
                 /\ ((rc <> 0 /\ info = rc /\ r' = r1 /\ w' = w2)
                     \/ (rc = 0 /\ ~ In algorithm algorithm_labels
                         /\ info = PRIMA_INVALID_INPUT /\ r' = r1 /\ w' = w2)
                     \/ (rc = 0 /\ In algorithm algorithm_labels
                         /\ exists (p : prima_problem_t) (o : prima_options_t)
                                   (r : prima_result_t) (c : engine_call)
                                   (has_cstrv : bool),
                              problem = Some p /\ o1 = Some o /\ r1 = Some r
                              /\ dispatch engine c has_cstrv o r 0 w2
                                 = Some (info, o', r', w')
                              /\ engine_algorithm c = algorithm
                              /\ call_n c = Problem.n p
                              /\ call_x c = Result.x r
                              /\ call_maxfun c = Options.maxfun o
                              /\ call_evaluator c
                                 = required_evaluator (use_constr_of algorithm) p
                              /\ (has_cstrv = true <->
                                  algorithm = PRIMA_COBYLA
                                  \/ algorithm = PRIMA_LINCOA))))).
Proof.
  intros Hd Hf Hrun.
  pose proof Hrun as Hrun0. unfold prima_minimize in Hrun0.
  apply bind_inv in Hrun0.
  destruct Hrun0 as ([code o1] & w1 & Hcheck & Hrest).
  fold (use_constr_of algorithm) in Hcheck.
  pose proof (check_world _ _ _ _ _ _ _ _ Hcheck) as ->.
  destruct (minimize_cases engine algorithm problem options result w Hf)
    as (Hok & Hcf & Hif).
  exists code, o1. split; [exact Hcheck|].
  destruct (Z.eq_dec code 0) as [->|Hcode].
  2:{ destruct (Hcf _ _ _ Hcheck Hcode) as (E & _).
      rewrite E in Hrun. injection Hrun as <- <- <- <-. auto 10. }
  apply bind_inv in Hrest.
  destruct Hrest as ([rc r1] & w2 & Hinit & _).
  change (0 =? 0) with true in Hinit. cbv iota in Hinit.
  destruct (Z.eq_dec rc 0) as [->|Hrc].
  2:{ destruct (Hif _ _ _ _ _ Hcheck Hinit Hrc) as (E & _).
      rewrite E in Hrun. injection Hrun as <- <- <- <-.
      split; [reflexivity|]. right. split; [reflexivity|].
      exists rc, r1, w2. auto 10. }
  destruct (Hok _ _ _ _ Hcheck Hinit) as (_ & Hout).
  destruct (in_dec Z.eq_dec algorithm algorithm_labels) as [Hin|Hnin].
  2:{ destruct (Hout Hnin) as (E & _).
      rewrite E in Hrun. injection Hrun as <- <- <- <-.
      split; [reflexivity|]. right. split; [reflexivity|].
      exists 0, r1, w2. split; [exact Hinit|]. right. left. auto 10. }
  destruct (check_zero_inv _ _ _ _ _ _ _ Hf Hcheck)
    as (p & o & -> & -> & _ & _ & _ & ->).
  destruct (init_result_frame _ _ _ _ _ _ Hinit) as (_ & _ & Hsome).
  destruct Hsome as (r & ->).
  { intros E. symmetry in E. revert E.
    apply (failures_nonzero_spec Hf). simpl. tauto. }
  destruct (minimize_dispatch algorithm p (Some o) (with_defaults p o) result r
              w w w2 Hd Hcheck Hinit Hin)
    as (c & hc & E & Hc1 & Hc2 & Hc3 & Hc4 & Hc5 & Hc6).
  rewrite E in Hrun.
  assert (Ho' : o' = Some (with_defaults p o)).
  { rewrite dispatch_eq in Hrun. simpl in Hrun. now injection Hrun. }
  split; [exact Ho'|]. right. split; [reflexivity|].
  exists 0, (Some r), w2. split; [exact Hinit|]. right. right.
  split; [reflexivity|]. split; [exact Hin|].
  exists p, (with_defaults p o), r, c, hc. auto 12.
Qed.
End Runs.

Section RunFacts.
Context {hdr : prima_h}.
Variable engine :
  engine_call -> engine_outs -> gmap addr block -> engine_outs * gmap addr block.

Lemma cons_neq {A : Type} (x : A) (l : list A) : l = x :: l -> False.
Proof. intros E. apply (f_equal (@length A)) in E. simpl in E. lia. Qed.

(** X6: what the status fields of the result mean. In a run that called an
    engine, [prima_init_result] had returned 0, the engine was entered
    with [*f = 0.0], [*cstrv = 0.0], [*nf = 0] and [*info = 0] on the heap
    [prima_init_result] left, and the value [prima_minimize] returns is
    the status the engine wrote to [*info]; the result records that status
    in [status], its string in [message], and the [f] and [nf] the engine
    wrote, and the heap is the one the engine left. In a run that called
    no engine the value returned is not 0, and the result is either the
    caller's, untouched, or a zeroed one with [status = 0] and a null
    [message]: the failure is in the return value only. So
    [prima_minimize] returns 0 only after an engine has run and reported
    0. *)
Theorem prima_minimize_status (algorithm : Z)
    (problem : option prima_problem_t) (options o' : option prima_options_t)
    (result r' : option prima_result_t) (w w' : world) (info : Z) :
  algorithms_distinct = true ->
  failures_nonzero = true ->
  prima_minimize engine algorithm problem options result w
    = Some (info, o', r', w') ->
  (forall c : engine_call,
      engine_log w' = c :: engine_log w ->
      engine_algorithm c = algorithm
      /\ exists (r1 r : prima_result_t) (w2 : world) (out : engine_outs)
                (h : gmap addr block),
           prima_init_result result problem w = Some (0, Some r1, w2)
           /\ engine c {| e_f := double_zero; e_cstrv := double_zero;
                          e_nf := 0; e_info := 0 |} (heap w2) = (out, h)
           /\ info = e_info out
           /\ r' = Some r
           /\ Result.status r = e_info out
           /\ Result.message r = prima_get_rc_string (e_info out)
           /\ Result.f r = e_f out /\ Result.nf r = e_nf out
           /\ Result.x r = Result.x r1
           /\ Result.nlconstr r = Result.nlconstr r1
           /\ heap w' = h)
  /\ (engine_log w' = engine_log w ->
      info <> 0
      /\ (r' = result
          \/ exists r : prima_result_t,
               r' = Some r /\ Result.status r = 0
               /\ Result.message r = NullStr))
  /\ (engine_log w' = engine_log w
      \/ exists c : engine_call, engine_log w' = c :: engine_log w).
Proof.
  intros Hd Hf Hrun.
  pose proof (failures_nonzero_spec Hf) as Hnz.
  destruct (minimize_inv engine _ _ _ _ _ _ _ _ _ Hd Hf Hrun)
    as (code & o1 & Hcheck & -> & [(Hcode & -> & -> & ->)
        |(-> & rc & r1 & w2 & Hinit & Hcases)]).
  { split; [intros c E; now apply cons_neq in E|]. split; [|now left].
    intros _. split; [exact Hcode|now left]. }
  destruct (init_result_frame _ _ _ _ _ _ Hinit) as (Hlog & Hin & _).
  assert (Hzero : r1 = result
                  \/ exists r, r1 = Some r /\ Result.status r = 0
                               /\ Result.message r = NullStr).
  { destruct result as [r0|];
      [|left; unfold prima_init_result, ret in Hinit; congruence].
    right.
    destruct (init_result_heap r0 problem w w2 rc r1 Hinit)
      as (r & -> & Hr & _).
    exists r. split; [reflexivity|]. rewrite Hr. split; reflexivity. }
  destruct Hcases as [(Hrc & -> & -> & ->)|[(-> & Hnin & -> & -> & ->)
      |(-> & Hlab & p & o & r & c & hc & -> & -> & -> & Hdisp & Hc & _)]].
  - split; [intros c E; rewrite Hlog in E; now apply cons_neq in E|].
    split; [|now left]. intros _. split; assumption.
  - split; [intros c E; rewrite Hlog in E; now apply cons_neq in E|].
    split; [|now left]. intros _. split; [|assumption].
    apply Hnz. simpl. tauto.
  - assert (Houts : outs_of r 0
                    = {| e_f := double_zero; e_cstrv := double_zero;
                         e_nf := 0; e_info := 0 |}).
    { destruct result as [r0|];
        [|unfold prima_init_result, ret in Hinit; congruence].
      destruct (init_result_heap r0 (Some p) w w2 0 (Some r) Hinit)
        as (r2 & [= <-] & Hr & _).
      unfold outs_of. rewrite Hr. reflexivity. }
    rewrite dispatch_eq, Houts in Hdisp. cbv zeta in Hdisp.
    destruct (engine c {| e_f := double_zero; e_cstrv := double_zero;
                          e_nf := 0; e_info := 0 |} (heap w2))
      as [out h] eqn:Heng.
    simpl in Hdisp. injection Hdisp as <- <- <-. simpl. rewrite Hlog.
    split; [|split; [|right; eauto]].
    + intros c' [= <-]. split; [exact Hc|].
      destruct hc; eexists r, _, w2, out, h.
      all: split; [exact Hinit|]; split; [exact Heng|].
      all: unfold store_outs; repeat split.
    + intros E. symmetry in E. now apply cons_neq in E.
Qed.

(** X7: the constraint violation of the algorithms without constraints. For
    BOBYQA, NEWUOA and UOBYQA, when the check passes and a result is
    given, the result [prima_minimize] leaves has [cstrv = 0.0], whatever
    the allocator answers and the engine writes: these engines are not
    handed [&(result->cstrv)]. *)
Theorem prima_minimize_cstrv_zero (algorithm : Z)
    (problem : option prima_problem_t)
    (options o1 o' : option prima_options_t) (r0 : prima_result_t)
    (r' : option prima_result_t) (w w1 w' : world) (info : Z) :
  algorithms_distinct = true ->
  failures_nonzero = true ->
  In algorithm [PRIMA_BOBYQA; PRIMA_NEWUOA; PRIMA_UOBYQA] ->
  prima_check_problem problem options (use_constr_of algorithm) algorithm w
    = Some (0, o1, w1) ->
  prima_minimize engine algorithm problem options (Some r0) w
    = Some (info, o', r', w') ->
  exists r : prima_result_t, r' = Some r /\ Result.cstrv r = double_zero.
Proof.
  intros Hd Hf Halg Hcheck Hrun.
  destruct (minimize_inv engine _ _ _ _ _ _ _ _ _ Hd Hf Hrun)
    as (code & o2 & Hcheck' & -> & [(Hcode & _)
        |(-> & rc & r1 & w2 & Hinit & Hcases)]).
  { rewrite Hcheck in Hcheck'. congruence. }
  destruct (init_result_heap r0 problem w w2 rc r1 Hinit)
    as (r & -> & Hr & _).
  assert (Hz : Result.cstrv r = double_zero) by (rewrite Hr; reflexivity).
  destruct Hcases as [(Hrc & -> & -> & ->)|[(-> & Hnin & -> & -> & ->)
      |(-> & Hlab & p & o & r2 & c & hc & -> & -> & [= <-] & Hdisp & _ & _
        & _ & _ & _ & Hhc)]]; eauto.
  rewrite dispatch_eq in Hdisp. simpl in Hdisp.
  injection Hdisp as _ <- _. eexists. split; [reflexivity|].
  assert (hc = false) as ->.
  { destruct hc; [|reflexivity]. exfalso.
    apply algorithms_distinct_spec in Hd.
    destruct Hd as (H1 & H2 & H3 & H4 & H5 & H6 & H7 & H8 & H9 & H10).
    destruct (proj1 Hhc eq_refl) as [E|E]; simpl in Halg;
      intuition congruence. }
  simpl. exact Hz.
Qed.

(** X8: what an engine is handed. The call a run of [prima_minimize] logs
    is for the engine of the algorithm, with the dimension of the problem,
    the [maxfun] of the options after the defaults ([500 * n] if the
    caller's was zero), the evaluator the algorithm requires ([calcfc] for
    COBYLA, [calfun] otherwise), which is not null, and, as [x], the block
    that [result.x] points to: a block that did not exist before the run,
    never the caller's [x0]. *)
Theorem prima_minimize_engine_arguments (algorithm : Z)
    (problem : option prima_problem_t) (options o' : option prima_options_t)
    (result r' : option prima_result_t) (w w' : world) (info : Z)
    (c : engine_call) :
  algorithms_distinct = true ->
  failures_nonzero = true ->
  prima_minimize engine algorithm problem options result w
    = Some (info, o', r', w') ->
  engine_log w' = c :: engine_log w ->
  exists (p : prima_problem_t) (o : prima_options_t) (r : prima_result_t)
         (a : addr),
    problem = Some p /\ options = Some o /\ r' = Some r
    /\ engine_algorithm c = algorithm
    /\ call_n c = Problem.n p
    /\ call_maxfun c = (if Options.maxfun o =? 0 then 500 * Problem.n p
                        else Options.maxfun o)
    /\ call_evaluator c = required_evaluator (use_constr_of algorithm) p
    /\ call_evaluator c <> NULL
    /\ call_x c = Ptr a /\ Result.x r = Ptr a
    /\ heap w !! a = None
    /\ call_x c <> Problem.x0 p.
Proof.
  intros Hd Hf Hrun Hc.
  pose proof (failures_nonzero_spec Hf) as Hnz.
  destruct (minimize_inv engine _ _ _ _ _ _ _ _ _ Hd Hf Hrun)
    as (code & o1 & Hcheck & -> & [(Hcode & -> & -> & ->)
        |(-> & rc & r1 & w2 & Hinit & Hcases)]).
  { now apply cons_neq in Hc. }
  destruct (init_result_frame _ _ _ _ _ _ Hinit) as (Hlog & _ & _).
  destruct Hcases as [(Hrc & -> & -> & ->)|[(-> & Hnin & -> & -> & ->)
      |(-> & Hlab & p & o & r & c0 & hc & -> & -> & -> & Hdisp & Hc1 & Hc2
        & Hc3 & Hc4 & Hc5 & _)]].
  { rewrite Hlog in Hc. now apply cons_neq in Hc. }
  { rewrite Hlog in Hc. now apply cons_neq in Hc. }
  rewrite dispatch_eq in Hdisp. simpl in Hdisp.
  injection Hdisp as <- <- <-. simpl in Hc. rewrite Hlog in Hc.
  injection Hc as <-.
  destruct (check_zero_inv _ _ _ _ _ _ _ Hf Hcheck)
    as (p' & o0 & [= <-] & -> & _ & Hsetup & _ & [= ->]).
  destruct result as [r0|].
  2:{ exfalso. simpl in Hinit. injection Hinit as E _ _. revert E.
      apply Hnz. simpl. tauto. }
  destruct (init_result_heap r0 (Some p) w w2 0 (Some r) Hinit)
    as (r1 & [= <-] & Hr & _ & Hsrc & Hshape).
  assert (Hx : exists a, Result.x r = Ptr a /\ heap w !! a = None).
  { destruct Hshape as [(_ & _ & _ & Hin)|[(a & bx & Hx & _ & Ha & _)
        |(a & b & bx & bn & Hx & _ & _ & Ha & _)]]; eauto.
    exfalso. simpl in Hin.
    destruct Hin as [E|[E|[E|[]]]]; revert E; apply Hnz; simpl; tauto. }
  destruct Hx as (a & Hx & Ha).
  destruct Hsrc as (p' & a0 & b0 & [= <-] & Hx0 & Hb0);
    [rewrite Hx; discriminate|].
  eexists p, o0, _, a. split; [reflexivity|]. split; [reflexivity|].
  split; [reflexivity|]. split; [exact Hc1|]. split; [exact Hc2|].
  split; [rewrite Hc4; reflexivity|]. split; [exact Hc5|].
  split.
  { rewrite Hc5. unfold setup_ok in Hsetup.
    apply andb_prop in Hsetup. destruct Hsetup as [Hsetup _].
    apply andb_prop in Hsetup. destruct Hsetup as [Hsetup _].
    apply andb_prop in Hsetup. destruct Hsetup as [_ Hev].
    intros E. rewrite E in Hev. discriminate. }
  split; [now rewrite Hc3|].
  split; [destruct hc; simpl; exact Hx|]. split; [exact Ha|].
  rewrite Hc3, Hx, Hx0. intros [= ->]. congruence.
Qed.
End RunFacts.

Section RunMemory.
Context {hdr : prima_h}.
Variable engine :
  engine_call -> engine_outs -> gmap addr block -> engine_outs * gmap addr block.


(** X10: a whole solve leaves no block behind. Let the engine neither
    allocate nor release. When the check passes and a result is given,
    then however [prima_minimize] ends (a refused allocation, an algorithm
    outside the enumeration, an engine run with any status),
    [prima_free_result] on the result it leaves returns 0, nulls both
    buffers, and the heap has exactly the blocks it had before
    [prima_minimize]. *)
Theorem prima_minimize_then_free (algorithm : Z)
    (problem : option prima_problem_t)
    (options o1 o' : option prima_options_t) (r0 : prima_result_t)
    (r' : option prima_result_t) (w w1 w' : world) (info : Z) :
  algorithms_distinct = true ->
  failures_nonzero = true ->
  keeps_blocks engine ->
  prima_check_problem problem options (use_constr_of algorithm) algorithm w
    = Some (0, o1, w1) ->
  prima_minimize engine algorithm problem options (Some r0) w
    = Some (info, o', r', w') ->
  exists (r'' : prima_result_t) (w'' : world),
    prima_free_result r' w' = Some (0, Some r'', w'')
    /\ Result.x r'' = NULL /\ Result.nlconstr r'' = NULL
    /\ dom (heap w'') = dom (heap w)
    /\ engine_log w'' = engine_log w'.
Proof.
  intros Hd Hf Hkeeps Hcheck Hrun.
  destruct (minimize_inv engine _ _ _ _ _ _ _ _ _ Hd Hf Hrun)
    as (code & o2 & Hcheck' & -> & [(Hcode & _)
        |(-> & rc & r1 & w2 & Hinit & Hcases)]).
  { rewrite Hcheck in Hcheck'. congruence. }
  assert (Hfail : r' = r1 -> w' = w2 ->
            exists r'' w'',
              prima_free_result r' w' = Some (0, Some r'', w'')
              /\ Result.x r'' = NULL /\ Result.nlconstr r'' = NULL
              /\ dom (heap w'') = dom (heap w)
              /\ engine_log w'' = engine_log w').
  { intros -> ->.
    destruct (init_result_release r0 problem w rc r1 w2 Hinit)
      as (w'' & Hfree & Hh & Hl).
    destruct (init_result_frame _ _ _ _ _ _ Hinit) as (Hlog & _).
    exists Result.zero, w''. rewrite Hh, Hl, Hlog. auto. }
  destruct Hcases as [(Hrc & -> & E1 & E2)|[(-> & Hnin & -> & E1 & E2)
      |(-> & Hlab & p & o & r & c & hc & -> & -> & -> & Hdisp & _)]];
    [now apply Hfail|now apply Hfail|clear Hfail].
  rewrite dispatch_eq in Hdisp. simpl in Hdisp. injection Hdisp as _ <- <-.
  destruct (Hkeeps c (outs_of r 0) (heap w2)) as (Hdom & Hkind).
  set (h' := snd (engine c (outs_of r 0) (heap w2))) in *.
  set (out := fst (engine c (outs_of r 0) (heap w2))).
  assert (Hlive : forall (q : addr) (bq : block),
             heap w2 !! q = Some bq -> blk_dyn bq = true ->
             exists b', h' !! q = Some b' /\ blk_dyn b' = true).
  { intros q bq Hq Hdyn.
    assert (Hin : q ∈ dom h') by (rewrite Hdom; apply elem_of_dom; eauto).
    apply elem_of_dom in Hin. destruct Hin as (b' & Hb').
    exists b'. split; [exact Hb'|]. rewrite <- Hdyn. eauto. }
  destruct (init_result_heap r0 (Some p) w w2 0 (Some r) Hinit)
    as (r1 & [= <-] & Hr & _ & _ & Hshape).
  match goal with
  | |- context [prima_free_result (Some ?t)] => set (rr := t)
  end.
  assert (Hx : Result.x rr = Result.x r) by (destruct hc; reflexivity).
  assert (Hn : Result.nlconstr rr = Result.nlconstr r)
    by (destruct hc; reflexivity).
  rewrite free_result_run.
  - eexists _, _. split; [reflexivity|].
    split; [reflexivity|]. split; [reflexivity|]. split; [|reflexivity].
    unfold with_heap. cbn [heap with_log]. rewrite Hx, Hn. fold h'.
    destruct Hshape as [(Ex & En & Eh & _)|[(a & bx & Ex & En & Ha & _ & Eh)
        |(a & b & bx & bn & Ex & En & Hab & Ha & Hb & _ & _ & Eh)]];
      rewrite Ex, En; simpl.
    + now rewrite Hdom, Eh.
    + rewrite dom_delete_L, Hdom, Eh, <- dom_delete_L.
      now rewrite delete_insert_id.
    + rewrite !dom_delete_L, Hdom, Eh, <- !dom_delete_L.
      rewrite (delete_insert_id _ b)
        by (rewrite lookup_insert_ne by congruence; exact Hb).
      now rewrite delete_insert_id.
  - unfold releasable, owned. rewrite Hx, Hn.
    unfold with_heap. cbn [heap with_log]. fold h'.
    destruct Hshape as [(Ex & En & Eh & _)|[(a & bx & Ex & En & Ha & Hdx & Eh)
        |(a & b & bx & bn & Ex & En & Hab & Ha & Hb & Hdx & Hdn & Eh)]];
      rewrite Ex, En.
    + repeat split. now left.
    + split; [|split; [exact I|right; discriminate]].
      apply (Hlive a bx); [|exact Hdx]. rewrite Eh. apply lookup_insert_eq.
    + split; [|split; [|right; congruence]].
      * apply (Hlive a bx); [|exact Hdx].
        rewrite Eh, lookup_insert_ne, lookup_insert_eq by congruence.
        reflexivity.
      * apply (Hlive b bn); [|exact Hdn]. rewrite Eh. apply lookup_insert_eq.
Qed.

(** X11: the result is an output only. When the check passes,
    [prima_minimize] does not read what the result held: two runs that
    differ only in the contents of the result given end alike. When the
    check fails the result is given back untouched. With a null result the
    run fails with [PRIMA_NULL_RESULT] only after the check has passed and
    written its defaults to the options; nothing is allocated and no engine
    is called. *)
Theorem prima_minimize_result_is_output (algorithm : Z)
    (problem : option prima_problem_t) (options o1 : option prima_options_t)
    (w w1 : world) (code : Z) :
  failures_nonzero = true ->
  prima_check_problem problem options (use_constr_of algorithm) algorithm w
    = Some (code, o1, w1) ->
  (code = 0 ->
   (forall r0 r0' : prima_result_t,
       prima_minimize engine algorithm problem options (Some r0) w
       = prima_minimize engine algorithm problem options (Some r0') w)
   /\ prima_minimize engine algorithm problem options None w
      = Some (PRIMA_NULL_RESULT, o1, None, w))
  /\ (code <> 0 ->
      forall result : option prima_result_t,
        prima_minimize engine algorithm problem options result w
        = Some (code, o1, result, w)).
Proof.
  intros Hf Hcheck.
  pose proof (check_world _ _ _ _ _ _ _ _ Hcheck) as ->.
  destruct (minimize_cases engine algorithm problem options None w Hf)
    as (_ & _ & Hnull).
  split.
  - intros ->. split.
    + intros r0 r0'. unfold prima_minimize, bind.
      unfold use_constr_of in Hcheck. rewrite Hcheck. reflexivity.
    + apply (Hnull o1 w PRIMA_NULL_RESULT None w Hcheck eq_refl).
      apply (failures_nonzero_spec Hf). simpl. tauto.
  - intros Hcode result. now apply minimize_check_fails.
Qed.
End RunMemory.

(** *** The runs above on the sample inputs *)

Lemma prima_init_result_always_releasable_witness :
  exists (rc : Z) (r' : option prima_result_t) (w' w'' : world),
    @prima_init_result sample_h (Some sample_result) (Some sample_problem)
       sample_world = Some (rc, r', w')
    /\ @prima_free_result sample_h r' w' = Some (0, Some Result.zero, w'')
    /\ heap w'' = heap sample_world.
Proof.
  destruct (@prima_init_result_always_releasable sample_h sample_result
              (Some sample_problem) sample_world) as (_ & _ & H).
  destruct (@prima_init_result sample_h (Some sample_result)
              (Some sample_problem) sample_world)
    as [[[rc r'] w']|] eqn:Hrun; [|vm_compute in Hrun; discriminate Hrun].
  destruct (H rc r' w' eq_refl) as (w'' & Hfree & Hheap & _).
  exists rc, r', w', w''. split; [reflexivity|]. split; assumption.
Defined.

(** The run of BOBYQA on the sample problem, as an equation. *)
Ltac sample_run Hrun info o' r' w' :=
  destruct (@prima_minimize sample_h sample_engine 2 (Some sample_problem)
              (Some sample_options) (Some sample_result) sample_world)
    as [[[[info o'] r'] w']|] eqn:Hrun;
  [|vm_compute in Hrun; discriminate Hrun].

Lemma prima_minimize_status_witness :
  exists (info : Z) (o' : option prima_options_t)
         (r' : option prima_result_t) (w' : world),
    @prima_minimize sample_h sample_engine 2 (Some sample_problem)
       (Some sample_options) (Some sample_result) sample_world
      = Some (info, o', r', w')
    /\ exists (c : engine_call) (r : prima_result_t) (w2 : world)
              (out : engine_outs) (h : gmap addr block),
         engine_log w' = c :: engine_log sample_world
         /\ sample_engine c {| e_f := double_zero; e_cstrv := double_zero;
                                e_nf := 0; e_info := 0 |} (heap w2) = (out, h)
         /\ info = e_info out
         /\ r' = Some r /\ Result.status r = e_info out.
Proof.
  sample_run Hrun info o' r' w'.
  exists info, o', r', w'. split; [reflexivity|].
  assert (Hlog : exists c, engine_log w' = c :: engine_log sample_world).
  { vm_compute in Hrun. injection Hrun as _ _ _ <-. eexists. reflexivity. }
  destruct Hlog as (c & Hlog).
  destruct (@prima_minimize_status sample_h sample_engine 2
              (Some sample_problem) (Some sample_options) o'
              (Some sample_result) r' sample_world w' info eq_refl eq_refl
              Hrun) as (Hcall & _).
  destruct (Hcall c Hlog)
    as (_ & r1 & r & w2 & out & h & _ & Heng & Hinfo & Hr & Hst & _).
  exists c, r, w2, out, h. auto.
Defined.

Lemma prima_minimize_cstrv_zero_witness :
  exists (info : Z) (o' : option prima_options_t)
         (r' : option prima_result_t) (w' : world),
    @prima_minimize sample_h sample_engine 2 (Some sample_problem)
       (Some sample_options) (Some sample_result) sample_world
      = Some (info, o', r', w')
    /\ exists r : prima_result_t, r' = Some r /\ Result.cstrv r = double_zero.
Proof.
  sample_run Hrun info o' r' w'.
  exists info, o', r', w'. split; [reflexivity|].
  apply (@prima_minimize_cstrv_zero sample_h sample_engine 2
           (Some sample_problem) (Some sample_options)
           (Some (Options.mk NAN NAN neg_INFINITY 1000 5 0 NULL NULL)) o'
           sample_result r' sample_world sample_world w' info
           eq_refl eq_refl);
    [vm_compute; tauto|reflexivity|exact Hrun].
Defined.

Lemma prima_minimize_engine_arguments_witness :
  exists (c : engine_call) (p : prima_problem_t) (o : prima_options_t)
         (r : prima_result_t) (a : addr),
    Some sample_problem = Some p /\ Some sample_options = Some o
    /\ call_n c = Problem.n p /\ call_x c = Ptr a /\ Result.x r = Ptr a.
Proof.
  sample_run Hrun info o' r' w'.
  assert (Hlog : exists c, engine_log w' = c :: engine_log sample_world).
  { vm_compute in Hrun. injection Hrun as _ _ _ <-. eexists. reflexivity. }
  destruct Hlog as (c & Hlog).
  destruct (@prima_minimize_engine_arguments sample_h sample_engine 2
              (Some sample_problem) (Some sample_options) o'
              (Some sample_result) r' sample_world w' info c
              eq_refl eq_refl Hrun Hlog)
    as (p & o & r & a & Hp & Ho & _ & _ & Hn & _ & _ & _ & Hx & Hr & _).
  exists c, p, o, r, a. auto.
Defined.


Lemma prima_minimize_then_free_witness :
  exists (info : Z) (o' : option prima_options_t)
         (r' : option prima_result_t) (w' : world)
         (r'' : prima_result_t) (w'' : world),
    @prima_minimize sample_h sample_engine 2 (Some sample_problem)
       (Some sample_options) (Some sample_result) sample_world
      = Some (info, o', r', w')
    /\ @prima_free_result sample_h r' w' = Some (0, Some r'', w'')
    /\ dom (heap w'') = dom (heap sample_world).
Proof.
  sample_run Hrun info o' r' w'.
  destruct (@prima_minimize_then_free sample_h sample_engine 2
              (Some sample_problem) (Some sample_options)
              (Some (Options.mk NAN NAN neg_INFINITY 1000 5 0 NULL NULL)) o'
              sample_result r' sample_world sample_world w' info
              eq_refl eq_refl)
    as (r'' & w'' & Hfree & _ & _ & Hdom & _).
  - intros c o h. split; [reflexivity|]. simpl. intros a b b' H1 H2.
    congruence.
  - reflexivity.
  - exact Hrun.
  - exists info, o', r', w', r'', w''. split; [reflexivity|].
    split; assumption.
Defined.

Lemma prima_minimize_result_is_output_witness :
  @prima_minimize sample_h sample_engine 2 (Some sample_problem)
     (Some sample_options) None sample_world
  = Some (113, Some (Options.mk NAN NAN neg_INFINITY 1000 5 0 NULL NULL),
          None, sample_world).
Proof.
  apply (@prima_minimize_result_is_output sample_h sample_engine 2
           (Some sample_problem) (Some sample_options) _ sample_world
           sample_world 0 eq_refl);
    reflexivity.
Defined.

(** ** A negative dimension *)

Section NegativeDimension.
Context {hdr : prima_h}.
Variable engine :
  engine_call -> engine_outs -> gmap addr block -> engine_outs * gmap addr block.

(** With a negative dimension [n * sizeof(double)] is a size no allocator
    grants: [prima_init_result] reports the failure of the allocation and
    attaches nothing, whatever the allocator would have answered. *)
Lemma init_result_negative (r0 : prima_result_t) (p : prima_problem_t)
    (w : world) :
  nonnull (Problem.x0 p) = true ->
  INT_MIN <= Problem.n p < 0 ->
  prima_init_result (Some r0) (Some p) w
  = Some (PRIMA_MEMORY_ALLOCATION_FAILS, Some Result.zero, w).
Proof.
  intros Hx0 Hn. unfold nonnull in Hx0. apply negb_true_iff in Hx0.
  unfold prima_init_result. rewrite Hx0. unfold bind, malloc.
  pose proof (size_of_negative (Problem.n p) Hn) as Hsize.
  apply Z.ltb_lt in Hsize. rewrite Hsize. reflexivity.
Qed.

(** X12: a problem of negative dimension is validated and then refused for
    want of memory. [prima_check_problem] does not look at the sign of
    [n]; when it accepts a problem with [n < 0], [prima_minimize] returns
    [PRIMA_MEMORY_ALLOCATION_FAILS], whatever the allocator has to give,
    with the options completed by the defaults, a zeroed result without
    buffers, no engine called and the memory as it was. *)
Theorem prima_minimize_negative_dimension (algorithm : Z)
    (p : prima_problem_t) (options o1 : option prima_options_t)
    (r0 : prima_result_t) (w w1 : world) :
  failures_nonzero = true ->
  prima_check_problem (Some p) options (use_constr_of algorithm) algorithm w
    = Some (0, o1, w1) ->
  INT_MIN <= Problem.n p < 0 ->
  prima_minimize engine algorithm (Some p) options (Some r0) w
  = Some (PRIMA_MEMORY_ALLOCATION_FAILS, o1, Some Result.zero, w).
Proof.
  intros Hf Hcheck Hn.
  destruct (check_zero_inv algorithm (Some p) options o1
              (use_constr_of algorithm) w w1 Hf Hcheck)
    as (p' & o & [= <-] & -> & _ & Hsetup & -> & ->).
  assert (Hx0 : nonnull (Problem.x0 p) = true).
  { unfold setup_ok in Hsetup.
    apply andb_prop in Hsetup. destruct Hsetup as [Hsetup _].
    apply andb_prop in Hsetup. destruct Hsetup as [Hsetup _].
    apply andb_prop in Hsetup. now destruct Hsetup as [Hsetup _]. }
  destruct (minimize_cases engine algorithm (Some p) (Some o) (Some r0) w Hf)
    as (_ & _ & Hfail).
  destruct (Hfail _ _ _ _ _ Hcheck (init_result_negative r0 p w Hx0 Hn))
    as (Hrun & _); [|exact Hrun].
  apply (failures_nonzero_spec Hf). simpl. tauto.
Qed.
End NegativeDimension.

Lemma prima_minimize_negative_dimension_witness :
  @prima_minimize sample_h sample_engine 1
     (Some (Problem.set_n (-3) sample_unconstrained)) (Some sample_options)
     (Some sample_result) sample_world
  = Some (103, Some (Options.mk NAN NAN neg_INFINITY (-1500) (-5) 0 NULL NULL),
          Some Result.zero, sample_world).
Proof.
  apply (@prima_minimize_negative_dimension sample_h sample_engine 1
           (Problem.set_n (-3) sample_unconstrained) (Some sample_options)
           _ sample_result sample_world sample_world);
    [reflexivity|reflexivity|unfold INT_MIN; simpl; lia].
Defined.

(** ** The example program *)

Section ExampleFacts.
Context {hdr : prima_h}.
Variable engine :
  engine_call -> engine_outs -> gmap addr block -> engine_outs * gmap addr block.
Variable PRIMA_MSG_EXIT : Z.
Variables fun_addr callback_addr : addr.

(** [main] up to its call of [prima_minimize]. *)
Lemma main_setup (problem0 : prima_problem_t) (options0 : prima_options_t)
    (result0 : prima_result_t) (w : world) :
  main engine PRIMA_MSG_EXIT fun_addr callback_addr problem0 options0 result0 w
  = match prima_minimize engine PRIMA_BOBYQA
            (Some (main_problem fun_addr (Ptr (main_x0 (heap w)))
                     (Ptr (main_xl (heap w))) (Ptr (main_xu (heap w)))))
            (Some (main_options PRIMA_MSG_EXIT callback_addr))
            (Some result0) (with_heap (main_heap (heap w)) w) with
    | Some (rc, _, Some result, w') => main_report rc result w'
    | _ => None
    end.
Proof.
  unfold main, bind, local_array. simpl.
  destruct w as [h s l]. simpl. unfold with_heap. simpl.
  unfold main_heap, main_xu, main_xl, main_x0, caller_array. simpl.
  destruct (prima_minimize _ _ _ _ _ _) as [[[[rc o] [r|]] w']|]; reflexivity.
Qed.

(** Reading a cell of a live array. *)
Lemma load_run (a : addr) (b : block) (i : nat) (d : double) (w : world) :
  heap w !! a = Some b -> blk_cells b !! i = Some (Vdouble d) ->
  load (Ptr a) i w = Some (d, w).
Proof. intros Ha Hi. unfold load. now rewrite Ha, Hi. Qed.

Lemma load_inv (p : ptr) (i : nat) (d : double) (w w' : world) :
  load p i w = Some (d, w') ->
  w' = w
  /\ exists (a : addr) (b : block),
       p = Ptr a /\ heap w !! a = Some b
       /\ blk_cells b !! i = Some (Vdouble d).
Proof.
  unfold load. destruct p as [|a]; [discriminate|].
  destruct (heap w !! a) as [b|] eqn:Ha; [|discriminate].
  destruct (blk_cells b !! i) as [[|d']|] eqn:Hi; try discriminate.
  intros [= <- <-]. eauto 10.
Qed.

(** The report of [main] on a result whose solution has been read. *)
Lemma main_report_run (rc : Z) (r : prima_result_t) (w : world) (a : addr)
    (b : block) (x0 x1 : double) (msg : string) :
  Result.x r = Ptr a -> heap w !! a = Some b ->
  blk_cells b !! 0%nat = Some (Vdouble x0) ->
  blk_cells b !! 1%nat = Some (Vdouble x1) ->
  Result.message r = Lit msg ->
  releasable (heap w) r ->
  main_report rc r w
  = Some (if far_from_solution x0 x1 then 1 else 0,
          {| out_x0 := x0; out_x1 := x1; out_rc := rc; out_msg := msg;
             out_evals := Result.nf r |},
          with_heap (release (Result.x r)
                       (release (Result.nlconstr r) (heap w))) w).
Proof.
  intros Hx Ha H0 H1 Hmsg Hrel.
  unfold main_report, print_result, bind. rewrite Hx.
  rewrite !(load_run a b 0 x0 w Ha H0), !(load_run a b 1 x1 w Ha H1).
  rewrite Hmsg. unfold ret at 1.
  rewrite !(load_run a b 0 x0 w Ha H0).
  unfold far_from_solution.
  destruct (c_gt (fabs (c_sub x0 double_4_5)) double_2e_2); cbv beta iota.
  - unfold ret at 1. rewrite (free_result_run r w Hrel). rewrite ?Hx.
    reflexivity.
  - rewrite (load_run a b 1 x1 w Ha H1). unfold ret at 1.
    rewrite (free_result_run r w Hrel). rewrite ?Hx. reflexivity.
Qed.

(** What a report that returns has printed and tested. *)
Lemma main_report_inv (rc : Z) (r : prima_result_t) (w w' : world)
    (code : Z) (out : printed) :
  main_report rc r w = Some (code, out, w') ->
  code = (if far_from_solution (out_x0 out) (out_x1 out) then 1 else 0)
  /\ out_rc out = rc
  /\ Result.message r = Lit (out_msg out)
  /\ out_evals out = Result.nf r.
Proof.
  unfold main_report, print_result. intros H.
  apply bind_inv in H. destruct H as (out' & w1 & Hprint & H).
  apply bind_inv in Hprint. destruct Hprint as (x0 & w2 & H0 & Hprint).
  apply load_inv in H0. destruct H0 as (-> & a & b & Hx & Ha & Hc0).
  apply bind_inv in Hprint. destruct Hprint as (x1 & w3 & H1 & Hprint).
  apply load_inv in H1. destruct H1 as (-> & a' & b' & Hx' & Ha' & Hc1).
  rewrite Hx in Hx'. injection Hx' as <-. rewrite Ha in Ha'.
  injection Ha' as <-.
  destruct (Result.message r) as [|msg]; [discriminate|].
  injection Hprint as <- <-.
  apply bind_inv in H. destruct H as (x0' & w4 & H0' & H).
  rewrite Hx, (load_run a b 0 x0 w Ha Hc0) in H0'. injection H0' as <- <-.
  apply bind_inv in H. destruct H as (success & w5 & Hs & H).
  apply bind_inv in H. destruct H as (u & w6 & _ & H).
  injection H as <- <- _. simpl.
  split; [|auto]. unfold far_from_solution.
  destruct (c_gt (fabs (c_sub x0 double_4_5)) double_2e_2); simpl.
  - now injection Hs.
  - apply bind_inv in Hs. destruct Hs as (x1' & w7 & H1' & Hs).
    rewrite Hx, (load_run a b 1 x1 w Ha Hc1) in H1'. injection H1' as <- <-.
    now injection Hs.
Qed.

(** X13: the exit status of the example. Whenever [main] returns, its exit
    status is 1 if a coordinate it printed is farther than [2e-2] from
    [(4.5, 4)] in binary64 arithmetic and 0 otherwise. A comparison with a
    NaN being false, a solution made of NaNs gives the exit status 0. *)
Theorem main_exit_status (problem0 : prima_problem_t)
    (options0 : prima_options_t) (result0 : prima_result_t) (w w' : world)
    (code : Z) (out : printed) :
  main engine PRIMA_MSG_EXIT fun_addr callback_addr problem0 options0 result0 w
    = Some (code, out, w') ->
  code = (if far_from_solution (out_x0 out) (out_x1 out) then 1 else 0)
  /\ (out_x0 out = NAN -> out_x1 out = NAN -> code = 0).
Proof.
  rewrite main_setup.
  destruct (prima_minimize _ _ _ _ _ _) as [[[[rc o] [r|]] w1]|];
    try discriminate.
  intros H. apply main_report_inv in H. destruct H as (-> & _).
  split; [reflexivity|]. intros -> ->. reflexivity.
Qed.

(** The arrays of [main] are three new blocks. *)
Lemma main_heap_lookup (h : gmap addr block) :
  main_heap h !! main_x0 h = Some (caller_array [double_zero; double_zero])
  /\ h !! main_x0 h = None /\ h !! main_xl h = None /\ h !! main_xu h = None
  /\ dom (main_heap h) = {[main_xu h]} ∪ ({[main_xl h]} ∪ ({[main_x0 h]} ∪ dom h)).
Proof.
  unfold main_heap.
  set (a1 := main_x0 h).
  set (a2 := main_xl h). set (a3 := main_xu h).
  set (h1 := <[a1 := caller_array [double_zero; double_zero]]> h).
  set (h2 := <[a2 := caller_array [double_minus_1; double_minus_1]]> h1).
  assert (H1 : h !! a1 = None) by apply fresh_heap.
  assert (H2 : h1 !! a2 = None) by apply fresh_heap.
  assert (H3 : h2 !! a3 = None) by apply fresh_heap.
  assert (H21 : a2 <> a1).
  { intros E. rewrite E in H2. unfold h1 in H2.
    rewrite lookup_insert_eq in H2. discriminate. }
  assert (H32 : a3 <> a2).
  { intros E. rewrite E in H3. unfold h2 in H3.
    rewrite lookup_insert_eq in H3. discriminate. }
  assert (H31 : a3 <> a1).
  { intros E. rewrite E in H3. unfold h2, h1 in H3.
    rewrite lookup_insert_ne, lookup_insert_eq in H3 by congruence.
    discriminate. }
  split.
  { unfold h2, h1. rewrite !lookup_insert_ne by congruence.
    apply lookup_insert_eq. }
  split; [exact H1|].
  split; [unfold h1 in H2; now rewrite lookup_insert_ne in H2 by congruence|].
  split.
  { unfold h2, h1 in H3. now rewrite !lookup_insert_ne in H3 by congruence. }
  unfold h2, h1. now rewrite !dom_insert_L.
Qed.

(** The check of [main]'s call passes and derives [npt = 5]. *)
Lemma main_check (x0 : addr) (xl xu : ptr) (w : world) :
  algorithms_distinct = true ->
  prima_check_problem (Some (main_problem fun_addr (Ptr x0) xl xu))
    (Some (main_options PRIMA_MSG_EXIT callback_addr))
    (use_constr_of PRIMA_BOBYQA) PRIMA_BOBYQA w
  = Some (0,
          Some (Options.set_npt 5 (main_options PRIMA_MSG_EXIT callback_addr)),
          w).
Proof.
  intros Hd. apply algorithms_distinct_spec in Hd.
  destruct Hd as (H1 & _).
  assert (Hu : use_constr_of PRIMA_BOBYQA = 0).
  { unfold use_constr_of. now rewrite (proj2 (Z.eqb_neq _ _) H1). }
  rewrite Hu.
  change (Options.set_npt 5 (main_options PRIMA_MSG_EXIT callback_addr))
    with (with_defaults (main_problem fun_addr (Ptr x0) xl xu)
            (main_options PRIMA_MSG_EXIT callback_addr)).
  apply check_accepts; [|reflexivity].
  unfold capability_checks_pass, neqb, has_nonlinear, has_linear. simpl.
  rewrite Z.eqb_refl. simpl. now rewrite !andb_false_r.
Qed.

Lemma rc_string_lit (rc : Z) : exists s : string, prima_get_rc_string rc = Lit s.
Proof.
  unfold prima_get_rc_string.
  destruct (switch_range rc (map (fun '(c, s) => (c, Lit s)) rc_strings)
              (Lit "Invalid return code")) as [->|(c & Hin & _)]; [eauto|].
  apply in_map_iff in Hin. destruct Hin as ([c' s] & Heq & _).
  inversion Heq. eauto.
Qed.

(** X14: the example dereferences a null pointer when memory is exhausted.
    [main] reads [result.x[0]] without looking at the status of
    [prima_minimize]: when the allocator refuses the solution buffer,
    [prima_minimize] returns [PRIMA_MEMORY_ALLOCATION_FAILS] with
    [result.x] null, and the [printf] of [main] is undefined. *)
Theorem main_undefined_without_memory (problem0 : prima_problem_t)
    (options0 : prima_options_t) (result0 : prima_result_t) (w : world) :
  algorithms_distinct = true ->
  failures_nonzero = true ->
  head (alloc_script w) <> Some true ->
  (exists (o' : option prima_options_t) (w' : world),
      prima_minimize engine PRIMA_BOBYQA
        (Some (main_problem fun_addr (Ptr (main_x0 (heap w)))
                 (Ptr (main_xl (heap w))) (Ptr (main_xu (heap w)))))
        (Some (main_options PRIMA_MSG_EXIT callback_addr)) (Some result0)
        (with_heap (main_heap (heap w)) w)
      = Some (PRIMA_MEMORY_ALLOCATION_FAILS, o', Some Result.zero, w'))
  /\ main engine PRIMA_MSG_EXIT fun_addr callback_addr problem0 options0
       result0 w = None.
Proof.
  intros Hd Hf Hs.
  set (wm := with_heap (main_heap (heap w)) w).
  set (P := main_problem fun_addr (Ptr (main_x0 (heap w)))
              (Ptr (main_xl (heap w))) (Ptr (main_xu (heap w)))).
  pose proof (main_check (main_x0 (heap w)) (Ptr (main_xl (heap w)))
                (Ptr (main_xu (heap w))) wm Hd) as Hcheck.
  fold P in Hcheck.
  destruct (main_heap_lookup (heap w)) as (Hx0 & _).
  destruct (init_result_defined result0 P wm (main_x0 (heap w))
              (caller_array [double_zero; double_zero]) eq_refl eq_refl Hx0
              ltac:(simpl; lia)) as (rc & r' & w' & Hinit).
  destruct (init_result_inv result0 P wm w' rc r' eq_refl eq_refl Hinit)
    as (r1 & -> & Hout & _).
  assert (Hrc : rc = PRIMA_MEMORY_ALLOCATION_FAILS /\ r1 = Result.zero).
  { inversion Hout as [w'' Href Hh E1 E2
        |a a0 b0 s w'' Hpos Hscript Hx0' Hb0 Hlen Ha Hnl Hh Hs'
        |a a0 b0 s w'' Hpos Hscript Hx0' Hb0 Hlen Ha Hnl Href Hh
        |a b a0 b0 s w'' Hpos Hscript Hx0' Hb0 Hlen Ha Hb Hab Hnl Hh Hs'];
      try (exfalso; apply Hs; unfold wm in Hscript; simpl in Hscript;
           now rewrite Hscript).
    auto. }
  destruct Hrc as (-> & ->).
  destruct (minimize_cases engine PRIMA_BOBYQA (Some P)
              (Some (main_options PRIMA_MSG_EXIT callback_addr))
              (Some result0) wm Hf) as (_ & _ & Hfail).
  destruct (Hfail _ _ _ _ _ Hcheck Hinit) as (Hrun & _).
  { apply (failures_nonzero_spec Hf). simpl. tauto. }
  split; [eauto|].
  rewrite main_setup. fold P wm. rewrite Hrun. reflexivity.
Qed.

(** X15: the example on a machine with memory. When the allocator grants
    the first request and the engine works in place, [main] returns. It
    has called one engine, [bobyqa_c], once, with the dimension 2, its
    arrays [xl] and [xu], [rhobeg] unset (NaN), [rhoend = 1e-3],
    [ftarget = -infinity], [maxfun = 400] as it set it (not the default
    1000), the derived [npt = 5], and, as [x], a block of the allocator
    that is none of its arrays. The message it prints is the string of the
    status it prints. At the end the block of the solution is released:
    the heap holds the blocks it held at first and the three arrays. *)
Theorem main_runs (problem0 : prima_problem_t) (options0 : prima_options_t)
    (result0 : prima_result_t) (w : world) (s : list bool) :
  algorithms_distinct = true ->
  works_in_place engine ->
  alloc_script w = true :: s ->
  exists (code : Z) (out : printed) (w' : world) (x : addr),
    main engine PRIMA_MSG_EXIT fun_addr callback_addr problem0 options0
      result0 w = Some (code, out, w')
    /\ main_heap (heap w) !! x = None
    /\ engine_log w'
       = bobyqa_c (Ptr fun_addr) NULL 2 (Ptr x) (Ptr (main_xl (heap w)))
           (Ptr (main_xu (heap w))) NAN double_1e_3 neg_INFINITY 400 5
           PRIMA_MSG_EXIT (Ptr callback_addr) :: engine_log w
    /\ prima_get_rc_string (out_rc out) = Lit (out_msg out)
    /\ dom (heap w') = dom (main_heap (heap w))
    /\ alloc_script w' = s.
Proof.
  intros Hd Hplace Hs.
  set (wm := with_heap (main_heap (heap w)) w).
  set (P := main_problem fun_addr (Ptr (main_x0 (heap w)))
              (Ptr (main_xl (heap w))) (Ptr (main_xu (heap w)))).
  set (O := main_options PRIMA_MSG_EXIT callback_addr).
  pose proof (main_check (main_x0 (heap w)) (Ptr (main_xl (heap w)))
                (Ptr (main_xu (heap w))) wm Hd) as Hcheck.
  fold P O in Hcheck.
  destruct (main_heap_lookup (heap w)) as (Hx0 & _).
  destruct (init_result_defined result0 P wm (main_x0 (heap w))
              (caller_array [double_zero; double_zero]) eq_refl eq_refl Hx0
              ltac:(simpl; lia)) as (rc & r' & w4 & Hinit).
  destruct (init_result_inv result0 P wm w4 rc r' eq_refl eq_refl Hinit)
    as (r1 & -> & Hout & Hlog4).
  assert (Hshape : exists x : addr,
             rc = 0 /\ r1 = Result.set_x (Ptr x) Result.zero
             /\ main_heap (heap w) !! x = None
             /\ heap w4 = <[x := {| blk_dyn := true;
                                    blk_cells := [Vdouble double_zero;
                                                  Vdouble double_zero] |}]>
                            (main_heap (heap w))
             /\ alloc_script w4 = s).
  { inversion Hout as [w'' Href Hh E1 E2
        |a a0 b0 s' w'' Hpos Hscript Hx0' Hb0 Hlen Ha Hnl Hh Hs'
        |a a0 b0 s' w'' Hpos Hscript Hx0' Hb0 Hlen Ha Hnl Href Hh
        |a b a0 b0 s' w'' Hpos Hscript Hx0' Hb0 Hlen Ha Hb Hab Hnl Hh Hs'];
      subst.
    - exfalso. destruct Href as [Href|Href]; [simpl in Href; lia|].
      apply Href. unfold wm. simpl. now rewrite Hs.
    - exists a. injection Hx0' as <-.
      unfold wm in Hb0, Hscript, Ha, Hh. simpl in Hb0, Hscript, Ha, Hh.
      rewrite Hx0 in Hb0. injection Hb0 as <-.
      rewrite Hs in Hscript. injection Hscript as <-.
      repeat split; try assumption.
    - simpl in Hnl. lia.
    - simpl in Hnl. lia. }
  destruct Hshape as (x & -> & -> & Hx & Hh4 & Hs4).
  set (c := bobyqa_c (Ptr fun_addr) NULL 2 (Ptr x) (Ptr (main_xl (heap w)))
              (Ptr (main_xu (heap w))) NAN double_1e_3 neg_INFINITY 400 5
              PRIMA_MSG_EXIT (Ptr callback_addr)).
  assert (Hrun : prima_minimize engine PRIMA_BOBYQA (Some P) (Some O)
                   (Some result0) wm
                 = dispatch engine c false (Options.set_npt 5 O)
                     (Result.set_x (Ptr x) Result.zero) 0 w4).
  { unfold prima_minimize, bind.
    unfold use_constr_of in Hcheck. rewrite Hcheck. cbv beta iota.
    change (0 =? 0) with true. cbv beta iota.
    rewrite Hinit. cbv beta iota.
    change (0 =? 0) with true. cbv beta iota.
    cbn [switch]. rewrite Z.eqb_refl. reflexivity. }
  rewrite main_setup. fold P O wm. rewrite Hrun, dispatch_eq.
  set (out := fst (engine c (outs_of (Result.set_x (Ptr x) Result.zero) 0)
                     (heap w4))).
  set (h' := snd (engine c (outs_of (Result.set_x (Ptr x) Result.zero) 0)
                    (heap w4))).
  cbv zeta.
  destruct (Hplace c (outs_of (Result.set_x (Ptr x) Result.zero) 0) (heap w4))
    as (Hdom & Hblocks). fold h' in Hdom, Hblocks.
  assert (Hx4 : heap w4 !! x
                = Some {| blk_dyn := true;
                          blk_cells := [Vdouble double_zero;
                                        Vdouble double_zero] |})
    by (rewrite Hh4; apply lookup_insert_eq).
  assert (Hin : x ∈ dom h') by (rewrite Hdom; apply elem_of_dom; eauto).
  apply elem_of_dom in Hin. destruct Hin as (b' & Hb').
  destruct (Hblocks x _ b' Hx4 Hb') as (Hdyn & Hlen & Hinit').
  destruct (Hinit' 0%nat double_zero eq_refl) as (xa & Hxa).
  destruct (Hinit' 1%nat double_zero eq_refl) as (xb & Hxb).
  destruct (rc_string_lit (e_info out)) as (msg & Hmsg).
  erewrite main_report_run;
    [|reflexivity|exact Hb'|exact Hxa|exact Hxb|exact Hmsg|].
  - eexists _, _, _, x. split; [reflexivity|]. split; [exact Hx|].
    split; [simpl; now rewrite Hlog4|]. split; [exact Hmsg|].
    split; [|exact Hs4]. simpl. fold h'.
    rewrite dom_delete_L, Hdom, Hh4, <- dom_delete_L.
    now rewrite delete_insert_id.
  - unfold releasable, owned. simpl. fold h'.
    split; [exists b'; split; [exact Hb'|exact Hdyn]|].
    split; [exact I|right; discriminate].
Qed.
End ExampleFacts.

(** *** The example on the sample machine *)

Lemma main_exit_status_witness :
  exists (code : Z) (out : printed) (w' : world),
    @main sample_h nan_engine 1 20%positive 21%positive sample_problem
       sample_options sample_result sample_world = Some (code, out, w')
    /\ code = (if far_from_solution (out_x0 out) (out_x1 out) then 1 else 0)
    /\ (out_x0 out = NAN -> out_x1 out = NAN -> code = 0).
Proof.
  destruct (@main sample_h nan_engine 1 20%positive 21%positive sample_problem
              sample_options sample_result sample_world)
    as [[[code out] w']|] eqn:Hrun; [|vm_compute in Hrun; discriminate Hrun].
  exists code, out, w'. split; [reflexivity|].
  apply (@main_exit_status sample_h nan_engine 1 20%positive 21%positive
           sample_problem sample_options sample_result sample_world w' code
           out Hrun).
Defined.

Lemma main_undefined_without_memory_witness :
  @main sample_h sample_engine 1 20%positive 21%positive sample_problem
     sample_options sample_result (with_script [] sample_world) = None.
Proof.
  apply (@main_undefined_without_memory sample_h sample_engine 1 20%positive
           21%positive sample_problem sample_options sample_result
           (with_script [] sample_world));
    [reflexivity|reflexivity|discriminate].
Defined.

Lemma main_runs_witness :
  exists (code : Z) (out : printed) (w' : world),
    @main sample_h sample_engine 1 20%positive 21%positive sample_problem
       sample_options sample_result sample_world = Some (code, out, w')
    /\ @prima_get_rc_string sample_h (out_rc out) = Lit (out_msg out)
    /\ alloc_script w' = [true].
Proof.
  destruct (@main_runs sample_h sample_engine 1 20%positive 21%positive
              sample_problem sample_options sample_result sample_world [true])
    as (code & out & w' & x & Hrun & _ & _ & Hmsg & _ & Hs).
  - reflexivity.
  - intros c o h. split; [reflexivity|]. simpl. intros a b b' H1 H2.
    assert (b' = b) as -> by congruence. eauto.
  - reflexivity.
  - exists code, out, w'. auto.
Defined.
